(** * nightcrows: the monster service and the chat fan-out of the game server

    A shallow embedding of [MonsterService] (the monster registry, its AI
    tick, the spawn check and combat) and of the chat path of [GameService],
    with the properties of the written specification stated over it.

    Conventions of the embedding.
    - Integral game quantities (hp, attack, defense, rewards, levels, map
      ids, millisecond time stamps) are [Z]; the service only ever produces
      them through [Math.floor].  Coordinates, random draws, spawn weights
      and level multipliers are JavaScript doubles and are modelled by exact
      rationals [Q]; rounding of doubles is not modelled.
    - The JavaScript [Map] [activeMonsters] keeps insertion order, so it is an
      association list with the [get]/[set] behaviour of [Map].
    - [Math.random()] reads the next element of a sequence [random] whose
      index is part of the service state.  [Date.now()] and [new Date()] are
      the argument [now] of each entry point: every clock read inside one
      synchronous call sees the same millisecond.
    - [broadcastToMap] of the monster service records the pair
      (map id, message) in [outbox], oldest first.  Logger calls are dropped. *)

From Stdlib Require Import ZArith QArith Qround Qminmax Lia Lqa.
From stdpp Require Import base option list strings pretty gmap fin_maps.

Local Open Scope Z_scope.

(** ** Data model (interfaces [Monster] and [MonsterTemplate]) *)

Inductive MonsterType := goblin | orc | skeleton | dragon | wolf | spider.

Inductive MonsterState := idle | patrolling | chasing | attacking | dead.

Global Instance MonsterType_eq_dec : EqDecision MonsterType.
Proof. solve_decision. Defined.

Global Instance MonsterState_eq_dec : EqDecision MonsterState.
Proof. solve_decision. Defined.

(** The string a [type] tag is at run time; it keys [monstersPerType]. *)
Definition type_tag (t : MonsterType) : string :=
  match t with
  | goblin => "goblin" | orc => "orc" | skeleton => "skeleton"
  | dragon => "dragon" | wolf => "wolf" | spider => "spider"
  end.

Record Position := mkPosition { pos_x : Q; pos_y : Q; mapId : Z }.

Record Point := mkPoint { pt_x : Q; pt_y : Q }.

Record Monster := mkMonster {
  id : string;
  name : string;
  type : MonsterType;
  level : Z;
  hp : Z;
  maxHp : Z;
  mp : Z;
  maxMp : Z;
  attack : Z;
  defense : Z;
  experience : Z;
  goldDrop : Z;
  position : Position;
  state : MonsterState;
  target : option string;
  lastAction : Z;
  respawnTime : option Z;
  aggroRange : Z;
  patrolRange : Z;
  originalPosition : Point
}.

Record MonsterTemplate := mkTemplate {
  tpl_name : string;
  tpl_type : MonsterType;
  baseLevel : Z;
  levelVariance : Z;
  baseHp : Z;
  baseAttack : Z;
  baseDefense : Z;
  baseExperience : Z;
  baseGold : Z;
  tpl_aggroRange : Z;
  tpl_patrolRange : Z;
  attackSpeed : Z;
  moveSpeed : Z;
  spawnMaps : list Z;
  spawnChance : Q
}.

(** Field assignments [monster.f = v]. *)
Definition set_hp (v : Z) (m : Monster) : Monster :=
  mkMonster (id m) (name m) (type m) (level m) v (maxHp m) (mp m) (maxMp m)
    (attack m) (defense m) (experience m) (goldDrop m) (position m) (state m)
    (target m) (lastAction m) (respawnTime m) (aggroRange m) (patrolRange m)
    (originalPosition m).

Definition set_mp (v : Z) (m : Monster) : Monster :=
  mkMonster (id m) (name m) (type m) (level m) (hp m) (maxHp m) v (maxMp m)
    (attack m) (defense m) (experience m) (goldDrop m) (position m) (state m)
    (target m) (lastAction m) (respawnTime m) (aggroRange m) (patrolRange m)
    (originalPosition m).

Definition set_position (v : Position) (m : Monster) : Monster :=
  mkMonster (id m) (name m) (type m) (level m) (hp m) (maxHp m) (mp m) (maxMp m)
    (attack m) (defense m) (experience m) (goldDrop m) v (state m)
    (target m) (lastAction m) (respawnTime m) (aggroRange m) (patrolRange m)
    (originalPosition m).

Definition set_state (v : MonsterState) (m : Monster) : Monster :=
  mkMonster (id m) (name m) (type m) (level m) (hp m) (maxHp m) (mp m) (maxMp m)
    (attack m) (defense m) (experience m) (goldDrop m) (position m) v
    (target m) (lastAction m) (respawnTime m) (aggroRange m) (patrolRange m)
    (originalPosition m).

Definition set_target (v : option string) (m : Monster) : Monster :=
  mkMonster (id m) (name m) (type m) (level m) (hp m) (maxHp m) (mp m) (maxMp m)
    (attack m) (defense m) (experience m) (goldDrop m) (position m) (state m)
    v (lastAction m) (respawnTime m) (aggroRange m) (patrolRange m)
    (originalPosition m).

Definition set_lastAction (v : Z) (m : Monster) : Monster :=
  mkMonster (id m) (name m) (type m) (level m) (hp m) (maxHp m) (mp m) (maxMp m)
    (attack m) (defense m) (experience m) (goldDrop m) (position m) (state m)
    (target m) v (respawnTime m) (aggroRange m) (patrolRange m)
    (originalPosition m).

Definition set_respawnTime (v : option Z) (m : Monster) : Monster :=
  mkMonster (id m) (name m) (type m) (level m) (hp m) (maxHp m) (mp m) (maxMp m)
    (attack m) (defense m) (experience m) (goldDrop m) (position m) (state m)
    (target m) (lastAction m) v (aggroRange m) (patrolRange m)
    (originalPosition m).

(** [monster.position.x = a; monster.position.y = b]: the map id stays. *)
Definition set_xy (a b : Q) (m : Monster) : Monster :=
  set_position (mkPosition a b (mapId (position m))) m.

(** [monster.state !== 'dead'] *)
Definition alive (m : Monster) : bool := bool_decide (state m ≠ dead).

(** ** The JavaScript [Map] keyed by monster id *)

Definition Registry := list (string * Monster).

Fixpoint Map_get (k : string) (r : Registry) : option Monster :=
  match r with
  | [] => None
  | (k', v) :: r' => if bool_decide (k' = k) then Some v else Map_get k r'
  end.

(** [set] overwrites in place when the key exists and appends otherwise. *)
Fixpoint Map_set (k : string) (v : Monster) (r : Registry) : Registry :=
  match r with
  | [] => [(k, v)]
  | (k', v') :: r' =>
      if bool_decide (k' = k) then (k, v) :: r' else (k', v') :: Map_set k v r'
  end.

Definition Map_keys (r : Registry) : list string := map fst r.

Definition Map_values (r : Registry) : list Monster := map snd r.

(** ** Outbound messages *)

Record PublicData := mkPublic {
  pub_id : string;
  pub_name : string;
  pub_type : MonsterType;
  pub_level : Z;
  pub_hp : Z;
  pub_maxHp : Z;
  pub_position : Position;
  pub_state : MonsterState
}.

Definition getMonsterPublicData (m : Monster) : PublicData :=
  mkPublic (id m) (name m) (type m) (level m) (hp m) (maxHp m) (position m)
    (state m).

Inductive Message :=
| monster_spawn (monster : PublicData)
| monster_damaged (monsterId : string) (damage currentHp maxHp_ : Z)
| monster_died (monsterId : string) (killerId experience_ gold : Z)
    (position_ : Position)
| monster_moved (monsterId : string) (position_ : Position)
| monster_attack (monsterId targetId : string) (damage : Z)
    (position_ : Position).

(** ** Service state and the state monad that threads it *)

Record MonsterService := mkService {
  activeMonsters : Registry;
  lastSpawnCheck : Z;
  outbox : list (Z * Message);
  rng : nat
}.

Definition M (A : Type) : Type := MonsterService → A * MonsterService.

Definition ret {A} (a : A) : M A := λ s, (a, s).

Definition bind {A B} (c : M A) (k : A → M B) : M B :=
  λ s, let (a, s') := c s in k a s'.

Notation "'let*' x ':=' c 'in' k" := (bind c (λ x, k))
  (at level 10, x name, c at level 100, k at level 200).
Notation "c ;; k" := (bind c (λ _, k))
  (at level 100, k at level 200, right associativity).

Definition getMonsters : M Registry := λ s, (activeMonsters s, s).

Definition putMonsters (r : Registry) : M unit :=
  λ s, (tt, mkService r (lastSpawnCheck s) (outbox s) (rng s)).

Definition setLastSpawnCheck (t : Z) : M unit :=
  λ s, (tt, mkService (activeMonsters s) t (outbox s) (rng s)).

Definition broadcastToMap (map_id : Z) (msg : Message) : M unit :=
  λ s, (tt, mkService (activeMonsters s) (lastSpawnCheck s)
              (outbox s ++ [(map_id, msg)]) (rng s)).

(** [this.activeMonsters.set(k, v)] *)
Definition storeMonster (k : string) (v : Monster) : M unit :=
  let* r := getMonsters in putMonsters (Map_set k v r).

(** ** Combat: [damageMonster] and [killMonster] *)

Record DamageResult := mkResult {
  killed : bool;
  res_experience : Z;
  res_gold : Z
}.

Definition noReward : DamageResult := mkResult false 0 0.

(** [killMonster] works on the monster object it is handed; the caller's
    object is the registry entry, so the result is stored under its key. *)
Definition killMonster (now : Z) (key : string) (monster : Monster)
    (killerId : Z) : M DamageResult :=
  let monster := set_state dead monster in
  let monster := set_target None monster in
  let monster := set_respawnTime (Some (now + 30000)) monster in
  storeMonster key monster ;;
  broadcastToMap (mapId (position monster))
    (monster_died (id monster) killerId (experience monster)
       (goldDrop monster) (position monster)) ;;
  ret (mkResult true (experience monster) (goldDrop monster)).

Definition damageMonster (now : Z) (monsterId : string) (damage : Z)
    (attackerId : Z) : M DamageResult :=
  let* r := getMonsters in
  match Map_get monsterId r with
  | None => ret noReward
  | Some monster =>
      if bool_decide (state monster = dead) then ret noReward
      else
        let actualDamage := Z.max 1 (damage - defense monster) in
        let monster := set_hp (Z.max 0 (hp monster - actualDamage)) monster in
        let monster :=
          if bool_decide (hp monster > 0)
          then set_state chasing (set_target (Some (pretty attackerId)) monster)
          else monster in
        storeMonster monsterId monster ;;
        broadcastToMap (mapId (position monster))
          (monster_damaged (id monster) actualDamage (hp monster)
             (maxHp monster)) ;;
        if bool_decide (hp monster <= 0)
        then killMonster now monsterId monster attackerId
        else ret noReward
  end.

(** ** Respawn *)

Definition respawnMonster (now : Z) (monsterId : string) : M unit :=
  let* r := getMonsters in
  match Map_get monsterId r with
  | None => ret tt
  | Some monster =>
      let monster := set_hp (maxHp monster) monster in
      let monster := set_mp (maxMp monster) monster in
      let monster := set_state idle monster in
      let monster := set_target None monster in
      let monster :=
        set_xy (pt_x (originalPosition monster))
          (pt_y (originalPosition monster)) monster in
      let monster := set_respawnTime None monster in
      let monster := set_lastAction now monster in
      storeMonster monsterId monster ;;
      broadcastToMap (mapId (position monster))
        (monster_spawn (getMonsterPublicData monster))
  end.

(** ** Queries: [getActiveMonsters] and [getStats] *)

Definition getActiveMonsters (mapId_ : option Z) (s : MonsterService)
    : list Monster :=
  let monsters := Map_values (activeMonsters s) in
  match mapId_ with
  | Some k =>
      List.filter
        (λ monster, bool_decide (mapId (position monster) = k) && alive monster)
        monsters
  | None => List.filter alive monsters
  end.

(** [obj[k] = (obj[k] || 0) + 1] on a counter object. *)
Definition bump `{Countable K} (k : K) (obj : gmap K Z) : gmap K Z :=
  <[k := default 0 (obj !! k) + 1]> obj.

Record Stats := mkStats {
  totalMonsters : Z;
  monstersPerMap : gmap Z Z;
  monstersPerType : gmap string Z
}.

Definition getStats (s : MonsterService) : Stats :=
  fold_left
    (λ stats monster,
       if alive monster
       then mkStats (totalMonsters stats + 1)
              (bump (mapId (position monster)) (monstersPerMap stats))
              (bump (type_tag (type monster)) (monstersPerType stats))
       else stats)
    (Map_values (activeMonsters s))
    (mkStats 0 ∅ ∅).

(** Sum of the counters held by a counter object. *)
Definition counter_sum `{Countable K} (obj : gmap K Z) : Z :=
  map_fold (λ _ v acc, v + acc) 0 obj.

(** ** [GameUtils] and [gameConfig.mapBoundaries] *)

Record Boundaries := mkBoundaries { minX : Q; maxX : Q; minY : Q; maxY : Q }.

Definition mapBoundaries (k : Z) : option Boundaries :=
  if bool_decide (k = 1) then Some (mkBoundaries 0 1000 0 1000)
  else if bool_decide (k = 2) then Some (mkBoundaries 0 1500 0 1500)
  else if bool_decide (k = 3) then Some (mkBoundaries 0 2000 0 2000)
  else None.

Definition Qltb (a b : Q) : bool := negb (Qle_bool b a).

Definition isValidPosition (x y : Q) (k : Z) : bool :=
  match mapBoundaries k with
  | None => false
  | Some b =>
      Qle_bool (minX b) x && Qle_bool x (maxX b) &&
      Qle_bool (minY b) y && Qle_bool y (maxY b)
  end.

(** ** The six templates, in the order they are inserted *)

Definition templates : list MonsterTemplate :=
  [ mkTemplate "Goblin Warrior" goblin 1 3 50 15 5 25 5 50 30 2000 25
      [1; 2] 0.8;
    mkTemplate "Forest Wolf" wolf 3 2 80 25 8 45 8 70 50 1500 40
      [2] 0.6;
    mkTemplate "Orc Berserker" orc 8 3 150 40 15 100 20 60 40 2500 30
      [2; 3] 0.4;
    mkTemplate "Ancient Skeleton" skeleton 12 4 200 60 20 180 35 80 20 3000 20
      [3] 0.3;
    mkTemplate "Giant Spider" spider 15 2 250 75 25 250 50 90 60 1800 35
      [3] 0.2;
    mkTemplate "Fire Dragon" dragon 50 10 2000 300 100 5000 1000 150 100 4000 50
      [3] 0.01 ].

(** [this.monsterTemplates.get(type)] *)
Definition monsterTemplates_get (t : MonsterType) : option MonsterTemplate :=
  List.find (λ tpl, bool_decide (tpl_type tpl = t)) templates.

(** [!monster.target]: an absent target, or the empty string. *)
Definition no_target (m : Monster) : bool :=
  match target m with
  | None => true
  | Some t => bool_decide (t = "")
  end.

(** ** What the run time supplies

    The values [Math.random()] returns, in call order, and the floating
    point library functions the service calls.  [toString36 r] stands for
    [r.toString(36).substr(2, 9)]. *)

Record Runtime := mkRuntime {
  random : nat → Q;
  Math_sqrt : Q → Q;
  Math_cos : Q → Q;
  Math_sin : Q → Q;
  Math_PI : Q;
  toString36 : Q → string
}.

(** A [for ... of] loop over a snapshot of keys. *)
Fixpoint forEach {A} (l : list A) (body : A → M unit) : M unit :=
  match l with
  | [] => ret tt
  | a :: l' => body a ;; forEach l' body
  end.

Section Simulation.
Variable rt : Runtime.

Definition Math_random : M Q :=
  λ s, (random rt (rng s),
        mkService (activeMonsters s) (lastSpawnCheck s) (outbox s) (S (rng s))).

Definition getDistance (x1 y1 x2 y2 : Q) : Q :=
  Math_sqrt rt ((x2 - x1) ^ 2 + (y2 - y1) ^ 2)%Q.

Definition generateRandomPosition (k : Z) : M Point :=
  match mapBoundaries k with
  | None => ret (mkPoint 100 100)
  | Some b =>
      let* rx := Math_random in
      let* ry := Math_random in
      ret (mkPoint (rx * (maxX b - minX b) + minX b)
                   (ry * (maxY b - minY b) + minY b))
  end.

(** ** Monster AI *)

Definition broadcastMonsterMovement (monster : Monster) : M unit :=
  broadcastToMap (mapId (position monster))
    (monster_moved (id monster) (position monster)).

Definition handleIdleState (monster : Monster) : M Monster :=
  let* r := Math_random in
  ret (if Qltb r 0.3 then set_state patrolling monster else monster).

Definition moveMonsterTowards (monster : Monster) (targetX targetY : Q)
    : M Monster :=
  match monsterTemplates_get (type monster) with
  | None => ret monster
  | Some template =>
      let distance :=
        getDistance (pos_x (position monster)) (pos_y (position monster))
          targetX targetY in
      if Qeq_bool distance 0 then ret monster
      else
        let moveDistance := (inject_Z (moveSpeed template) * 0.5)%Q in
        let ratio := Qmin (moveDistance / distance) 1 in
        let newX :=
          (pos_x (position monster)
           + (targetX - pos_x (position monster)) * ratio)%Q in
        let newY :=
          (pos_y (position monster)
           + (targetY - pos_y (position monster)) * ratio)%Q in
        if isValidPosition newX newY (mapId (position monster))
        then
          let monster := set_xy newX newY monster in
          broadcastMonsterMovement monster ;; ret monster
        else ret monster
  end.

Definition handlePatrolState (monster : Monster) : M Monster :=
  match monsterTemplates_get (type monster) with
  | None => ret monster
  | Some template =>
      let distance :=
        getDistance (pos_x (position monster)) (pos_y (position monster))
          (pt_x (originalPosition monster)) (pt_y (originalPosition monster)) in
      let* monster :=
        (if Qltb (inject_Z (patrolRange monster)) distance
         then
           moveMonsterTowards monster (pt_x (originalPosition monster))
             (pt_y (originalPosition monster))
         else
           let* r := Math_random in
           let angle := (r * 2 * Math_PI rt)%Q in
           let moveDistance := (inject_Z (moveSpeed template) * 0.5)%Q in
           let newX :=
             (pos_x (position monster) + Math_cos rt angle * moveDistance)%Q in
           let newY :=
             (pos_y (position monster) + Math_sin rt angle * moveDistance)%Q in
           if isValidPosition newX newY (mapId (position monster))
           then
             let monster := set_xy newX newY monster in
             broadcastMonsterMovement monster ;; ret monster
           else ret monster) in
      let* r := Math_random in
      ret (if Qltb r 0.2 then set_state idle monster else monster)
  end.

Definition handleChaseState (now : Z) (monster : Monster) : Monster :=
  if no_target monster then set_state idle monster
  else
    match monsterTemplates_get (type monster) with
    | None => monster
    | Some template =>
        let timeSinceChase := now - lastAction monster in
        if bool_decide (timeSinceChase > 10000)
        then set_target None (set_state patrolling monster)
        else set_state attacking monster
    end.

Definition performMonsterAttack (monster : Monster) : M Monster :=
  if no_target monster then ret monster
  else
    let* r := Math_random in
    let damage := attack monster + Qfloor (r * 10) - 5 in
    broadcastToMap (mapId (position monster))
      (monster_attack (id monster) (default "" (target monster)) damage
         (position monster)) ;;
    let* r := Math_random in
    ret (if Qltb r 0.3 then set_state chasing monster else monster).

Definition handleAttackState (now : Z) (monster : Monster) : M Monster :=
  if no_target monster then ret (set_state idle monster)
  else
    match monsterTemplates_get (type monster) with
    | None => ret monster
    | Some template =>
        let timeSinceLastAttack := now - lastAction monster in
        if bool_decide (timeSinceLastAttack >= attackSpeed template)
        then
          let* monster := performMonsterAttack monster in
          ret (set_lastAction now monster)
        else ret monster
    end.

Definition checkForPlayerAggro (monster : Monster) : M Monster :=
  let* r := Math_random in
  if Qltb r 0.05
  then
    let monster := set_state chasing monster in
    let* r := Math_random in
    ret (set_target (Some ("player_" +:+ pretty (Qfloor (r * 1000)))) monster)
  else ret monster.

(** The body of the loop of [updateMonsters] for one registry entry.  The
    loop variable is the object stored in the map, so every field assignment
    made by a handler lands in the registry entry. *)
Definition updateMonster (now : Z) (monsterId : string) : M unit :=
  let* r := getMonsters in
  match Map_get monsterId r with
  | None => ret tt
  | Some monster =>
      if bool_decide (state monster = dead)
      then
        match respawnTime monster with
        | Some t =>
            if bool_decide (now > t) then respawnMonster now monsterId
            else ret tt
        | None => ret tt
        end
      else
        let* monster :=
          match state monster with
          | idle => handleIdleState monster
          | patrolling => handlePatrolState monster
          | chasing => ret (handleChaseState now monster)
          | attacking => handleAttackState now monster
          | dead => ret monster
          end in
        let* monster :=
          (if bool_decide (state monster = idle)
              || bool_decide (state monster = patrolling)
           then checkForPlayerAggro monster
           else ret monster) in
        storeMonster monsterId (set_lastAction now monster)
  end.

Definition updateMonsters (now : Z) : M unit :=
  let* r := getMonsters in
  forEach (Map_keys r) (updateMonster now).

(** ** Spawning *)

Definition spawnMonster (now : Z) (template : MonsterTemplate) (k : Z)
    : M unit :=
  let* pos := generateRandomPosition k in
  let* r := Math_random in
  let level_ := baseLevel template
                + Qfloor (r * inject_Z (levelVariance template)) in
  let levelMultiplier :=
    (1 + inject_Z (level_ - baseLevel template) * 0.2)%Q in
  let scaled (v : Z) : Z := Qfloor (inject_Z v * levelMultiplier) in
  let* rid := Math_random in
  let monster :=
    mkMonster ("monster_" +:+ pretty now +:+ "_" +:+ toString36 rt rid)
      (tpl_name template) (tpl_type template) level_
      (scaled (baseHp template)) (scaled (baseHp template)) 50 50
      (scaled (baseAttack template)) (scaled (baseDefense template))
      (scaled (baseExperience template)) (scaled (baseGold template))
      (mkPosition (pt_x pos) (pt_y pos) k) idle None now None
      (tpl_aggroRange template) (tpl_patrolRange template)
      (mkPoint (pt_x pos) (pt_y pos)) in
  storeMonster (id monster) monster ;;
  broadcastToMap k (monster_spawn (getMonsterPublicData monster)).

(** The cumulative-subtraction loop of the weighted choice. *)
Fixpoint selectTemplate (random_ : Q) (l : list MonsterTemplate)
    : option MonsterTemplate :=
  match l with
  | [] => None
  | template :: l' =>
      let random_ := (random_ - spawnChance template)%Q in
      if Qle_bool random_ 0 then Some template else selectTemplate random_ l'
  end.

Definition trySpawnMonster (now : Z) (k : Z) : M unit :=
  let availableTemplates :=
    List.filter (λ template, bool_decide (k ∈ spawnMaps template)) templates in
  if bool_decide (length availableTemplates = 0%nat) then ret tt
  else
    let totalWeight :=
      fold_left (λ sum template, (sum + spawnChance template)%Q)
        availableTemplates 0%Q in
    let* r := Math_random in
    match selectTemplate (r * totalWeight) availableTemplates with
    | None => ret tt
    | Some selectedTemplate =>
        let* r := Math_random in
        if Qltb 0.1 r then ret tt
        else spawnMonster now selectedTemplate k
    end.

(** The table [monsterCountPerMap] built by the first loop. *)
Definition monsterCountPerMap (r : Registry) : gmap Z Z :=
  fold_left
    (λ counts monster,
       if alive monster then bump (mapId (position monster)) counts
       else counts)
    (Map_values r) ∅.

Definition checkSpawning (now : Z) : M unit :=
  λ s,
    let timeSinceLastCheck := now - lastSpawnCheck s in
    if bool_decide (timeSinceLastCheck < 5000) then (tt, s)
    else
      (setLastSpawnCheck now ;;
       let* r := getMonsters in
       let counts := monsterCountPerMap r in
       forEach [1; 2; 3]
         (λ k,
            let currentCount := default 0 (counts !! k) in
            let maxMonstersPerMap := 20 in
            if bool_decide (currentCount < maxMonstersPerMap)
            then trySpawnMonster now k
            else ret tt)) s.

(** The callback of [startGameLoop], run every 500 ms. *)
Definition gameLoop (now : Z) : M unit :=
  updateMonsters now ;; checkSpawning now.

End Simulation.

(** [n] runs of the game loop callback, [period] ms apart, the first one
    at [start + period]. *)
Fixpoint runLoop (rt : Runtime) (start period : Z) (n : nat)
    (s : MonsterService) : MonsterService :=
  match n with
  | O => s
  | S n' => runLoop rt (start + period) period n'
              (gameLoop rt (start + period) s).2
  end.

(** ** Chat fan-out of [GameService]

    A [WebSocket] is its identity; [isOpen ws] is
    [ws.readyState === WebSocket.OPEN].  The [Map] [activeSessions] is keyed
    by the socket each session holds, so it is the list of sessions in
    insertion order.  Every [ws.send] is recorded, in call order.  Only the
    fields of [Character] that the chat path reads are kept. *)

Definition Socket := nat.

Record Character := mkCharacter {
  char_id : Z;
  char_name : string;
  map_id : Z
}.

Record PlayerSession := mkSession {
  ws : Socket;
  userId : Z;
  character : option Character;
  lastActivity : Z
}.

(** A field of an inbound JSON payload: absent, a string, or anything else. *)
Inductive JsValue := JsUndefined | JsString (s : string) | JsOther.

Global Instance JsValue_eq_dec : EqDecision JsValue.
Proof. solve_decision. Defined.

Record ChatData := mkChat {
  channel : JsValue;
  characterName : string;
  message : string;
  timestamp : Z
}.

Definition Sent := list (Socket * ChatData).

Definition activeSessions_get (socket : Socket) (sessions : list PlayerSession)
    : option PlayerSession :=
  List.find (λ session, bool_decide (ws session = socket)) sessions.

(** [session.character && session.character.map_id === mapId] *)
Definition in_map (k : Z) (session : PlayerSession) : bool :=
  match character session with
  | Some c => bool_decide (map_id c = k)
  | None => false
  end.

Section Chat.
Variable isOpen : Socket → bool.

Definition sendMessage (socket : Socket) (msg : ChatData) (out : Sent) : Sent :=
  if isOpen socket then out ++ [(socket, msg)] else out.

Definition broadcast (sessions : list PlayerSession) (msg : ChatData)
    (out : Sent) : Sent :=
  fold_left
    (λ out session,
       if isOpen (ws session) then out ++ [(ws session, msg)] else out)
    sessions out.

(** [excludeWs] is the optional third argument. *)
Definition GameService_broadcastToMap (sessions : list PlayerSession)
    (k : Z) (msg : ChatData) (excludeWs : option Socket) (out : Sent) : Sent :=
  fold_left
    (λ out session,
       if bool_decide (Some (ws session) ≠ excludeWs)
          && in_map k session
          && isOpen (ws session)
       then out ++ [(ws session, msg)]
       else out)
    sessions out.

Definition handleChat (now : Z) (sessions : list PlayerSession)
    (socket : Socket) (message_ channel_ : JsValue) (out : Sent) : Sent :=
  match activeSessions_get socket sessions with
  | None => out
  | Some session =>
      match character session with
      | None => out
      | Some c =>
          let channel_ :=
            match channel_ with
            | JsUndefined => JsString "global"
            | v => v
            end in
          match message_ with
          | JsString text =>
              if bool_decide (text = "")
                 || bool_decide (500 < String.length text)%nat
              then out
              else
                let chatData := mkChat channel_ (char_name c) text now in
                if bool_decide (channel_ = JsString "global")
                then broadcast sessions chatData out
                else if bool_decide (channel_ = JsString "map")
                then GameService_broadcastToMap sessions (map_id c) chatData
                       None out
                else sendMessage socket chatData out
          | _ => out
          end
      end
  end.

End Chat.

(** The sockets a run of the chat path wrote to, in order. *)
Definition recipients (out : Sent) : list Socket := map fst out.

(** The registry entry a hit on a live monster leaves, and the entry the
    kill path leaves; they name the results of the two branches above. *)
Definition damaged (d attackerId : Z) (m : Monster) : Monster :=
  let m1 := set_hp (Z.max 0 (hp m - Z.max 1 (d - defense m))) m in
  if bool_decide (hp m1 > 0)
  then set_state chasing (set_target (Some (pretty attackerId)) m1)
  else m1.

Definition slain (now : Z) (m : Monster) : Monster :=
  set_respawnTime (Some (now + 30000)) (set_target None (set_state dead m)).


(** The census of a map: how many monsters [getActiveMonsters(mapId)]
    returns. *)
Definition census (s : MonsterService) (k : Z) : nat :=
  length (getActiveMonsters (Some k) s).

(** The messages in [evs] that were broadcast to map [k]. *)
Definition sent_to (k : Z) (evs : list (Z * Message)) : list (Z * Message) :=
  List.filter (λ e, bool_decide (e.1 = k)) evs.

(** One message added to the outbox by a call, as the specification words
    the side effect of a mutating call. *)
Definition emits_exactly_one (s s' : MonsterService) : Prop :=
  ∃ e, outbox s' = outbox s ++ [e].

(** ** Sample data: a level-1 Goblin Warrior standing on map 1 *)

Definition sample_goblin (h : Z) (st : MonsterState) (rt : option Z) : Monster :=
  mkMonster "monster_1" "Goblin Warrior" goblin 1 h 50 50 50 15 5 25 5
    (mkPosition 100 100 1) st None 0 rt 50 30 (mkPoint 100 100).

Definition sample_service (h : Z) (st : MonsterState) (rt : option Z)
    : MonsterService :=
  mkService [("monster_1", sample_goblin h st rt)] 0 [] 0.

(** A run time whose every draw is [c]; the floating point functions are
    not reached by the runs below. *)
Definition constant_runtime (c : Q) : Runtime :=
  mkRuntime (λ _, c) (λ q, q) (λ _, 1%Q) (λ _, 0%Q) 3.14 (λ _, "k3jx0a9qz").


(** Four sessions: alice and dave play on map 1, bob on map 2, carol has
    not selected a character; every socket but dave's is open. *)
Definition alice : PlayerSession :=
  mkSession 1%nat 101 (Some (mkCharacter 11 "Alice" 1)) 0.
Definition bob : PlayerSession :=
  mkSession 2%nat 102 (Some (mkCharacter 12 "Bob" 2)) 0.
Definition carol : PlayerSession := mkSession 3%nat 103 None 0.
Definition dave : PlayerSession :=
  mkSession 4%nat 104 (Some (mkCharacter 14 "Dave" 1)) 0.
Definition sample_sessions : list PlayerSession := [alice; bob; carol; dave].
Definition sample_isOpen (socket : Socket) : bool := bool_decide (socket ≠ 4%nat).

(** Concrete runs used below.  [kill_run]: the second scenario of the
    specification (hp 10, defense 5, damage 100, clock 1000).  [hit_run]:
    the first one (hp 50, damage 20), at clock 0.  [after_21_ticks]: the
    service 21 game loop runs, 500 ms apart, after [hit_run]. *)
Definition kill_run : DamageResult * MonsterService :=
  damageMonster 1000 "monster_1" 100 7 (sample_service 10 idle None).

Definition hit_run : DamageResult * MonsterService :=
  damageMonster 0 "monster_1" 20 7 (sample_service 50 idle None).

Definition after_21_ticks : MonsterService :=
  runLoop (constant_runtime 0.5) 0 500 21 hit_run.2.

(** ** The session registry of [GameService]

    [handleAuthentication], [handleDisconnection] and
    [cleanupInactiveSessions] work on the [Map] [activeSessions]; as for the
    monster registry, [set] overwrites in place or appends and [delete]
    removes the entry of the key.  [sendMessage] and [broadcastToMap] carry
    any payload; the chat path above uses them at [ChatData]. *)

Inductive Outbound :=
| out_authenticated (userId_ : Z)
| out_auth_failed
| out_player_left (characterId : Z) (name_ : string).


Fixpoint activeSessions_delete (socket : Socket)
    (sessions : list PlayerSession) : list PlayerSession :=
  match sessions with
  | [] => []
  | x :: l =>
      if bool_decide (ws x = socket) then l
      else x :: activeSessions_delete socket l
  end.

Section Wire.
Context {Msg : Type}.
Variable isOpen : Socket → bool.


Definition broadcastToMap_any (sessions : list PlayerSession) (k : Z)
    (msg : Msg) (excludeWs : option Socket) (out : list (Socket * Msg))
    : list (Socket * Msg) :=
  fold_left
    (λ out session,
       if bool_decide (Some (ws session) ≠ excludeWs)
          && in_map k session
          && isOpen (ws session)
       then out ++ [(ws session, msg)]
       else out)
    sessions out.

End Wire.

Record GameService := mkGame {
  activeSessions : list PlayerSession;
  wire : list (Socket * Outbound)
}.

Section Sessions.
Variable isOpen : Socket → bool.


Definition handleDisconnection (socket : Socket) (g : GameService)
    : GameService :=
  match activeSessions_get socket (activeSessions g) with
  | None => g
  | Some session =>
      let wire_ :=
        match character session with
        | Some c =>
            broadcastToMap_any isOpen (activeSessions g) (map_id c)
              (out_player_left (char_id c) (char_name c)) (Some socket)
              (wire g)
        | None => wire g
        end in
      mkGame (activeSessions_delete socket (activeSessions g)) wire_
  end.

End Sessions.

(** [cleanupInactiveSessions]: the sessions left and the sockets closed, in
    the order of the calls of [ws.close()]. *)
Definition cleanupInactiveSessions (now : Z) (sessions : list PlayerSession)
    : list PlayerSession * list Socket :=
  fold_left
    (λ acc session,
       let timeout := 10 * 60 * 1000 in
       if bool_decide (now - lastActivity session > timeout)
       then (activeSessions_delete (ws session) acc.1, acc.2 ++ [ws session])
       else acc)
    sessions (sessions, []).

(** ** [GameUtils]: levels and combat damage

    [generateExperienceTable] calls [Math.pow] with the exponent 1.8; the
    function is a parameter here.  [experienceTable] is the array the
    configuration holds, for [maxLevel] 100.  A read past the end of the
    array is [undefined], which is [None]; a comparison with [undefined] is
    false. *)

Definition maxLevel : Z := 100.

Section Levels.
Variable Math_pow : Q → Q → Q.

(** The loop [for (let level = 2; level <= maxLevel; level++)], with the
    levels still to visit as a list. *)
Fixpoint generateExperienceTable_loop (levels : list Z) (table : list Z)
    : list Z :=
  match levels with
  | [] => table
  | level :: rest =>
      let baseExp := 100 in
      let expForLevel :=
        Qfloor (inject_Z baseExp * Math_pow (inject_Z (level - 1)) 1.8) in
      generateExperienceTable_loop rest
        (table ++ [nth (Z.to_nat (level - 2)) table 0 + expForLevel])
  end.

Definition generateExperienceTable (maxLevel_ : Z) : list Z :=
  generateExperienceTable_loop
    (map Z.of_nat (seq 2 (Z.to_nat maxLevel_ - 1))) [0].

Definition experienceTable : list Z := generateExperienceTable 100.

Definition getRequiredExperience (level : Z) : option Z :=
  if bool_decide (level <= 1 ∨ level > maxLevel) then Some 0
  else experienceTable !! Z.to_nat (level - 1).

Definition canLevelUp (currentLevel currentExp : Z) : bool :=
  if bool_decide (currentLevel >= maxLevel) then false
  else
    match getRequiredExperience (currentLevel + 1) with
    | Some requiredExp => bool_decide (currentExp >= requiredExp)
    | None => false
    end.

(** The loop of [calculateLevelFromExp]; [None] when it falls through. *)
Fixpoint calculateLevelFromExp_loop (levels : list Z) (experience : Z)
    : option Z :=
  match levels with
  | [] => None
  | level :: rest =>
      match getRequiredExperience (level + 1) with
      | Some requiredExp =>
          if bool_decide (experience < requiredExp) then Some level
          else calculateLevelFromExp_loop rest experience
      | None => calculateLevelFromExp_loop rest experience
      end
  end.

Definition calculateLevelFromExp (experience : Z) : Z :=
  match calculateLevelFromExp_loop
          (map Z.of_nat (seq 1 (Z.to_nat maxLevel))) experience with
  | Some level => level
  | None => maxLevel
  end.

End Levels.

(** The fields [calculateCombatDamage] reads of attacker and target. *)
Record CombatStats := mkCombatStats {
  stat_level : Z;
  strength : Z;
  dexterity : Z;
  intelligence : Z
}.

Section CombatDamage.
Variable rt : Runtime.

Definition calculateCombatDamage (attacker target : CombatStats)
    (weaponAttack : Z) : M (Z * bool) :=
  let baseDamage := strength attacker + weaponAttack in
  let levelDifference := stat_level attacker - stat_level target in
  let levelMultiplier := (1 + inject_Z levelDifference * 0.05)%Q in
  let criticalChance :=
    Qmin 0.5 (inject_Z (dexterity attacker) / 200) in
  let* r := Math_random rt in
  let isCritical := Qltb r criticalChance in
  let defense := (inject_Z (strength target) * 0.5)%Q in
  let finalDamage :=
    Qmax 1 (inject_Z baseDamage * levelMultiplier - defense) in
  let finalDamage :=
    if isCritical then (finalDamage * 2)%Q else finalDamage in
  ret (Qfloor finalDamage, isCritical).

End CombatDamage.

(** ** Further notions for the properties of the registry *)

(** [getMonsterById]: [get(id) || null]. *)
Definition getMonsterById (monsterId : string) (s : MonsterService)
    : option Monster :=
  Map_get monsterId (activeMonsters s).

(** The attributes of a monster that are fixed when it is spawned. *)
Definition static_of (m : Monster) :=
  (id m, name m, type m, level m, maxHp m, maxMp m, attack m, defense m,
   experience m, goldDrop m, mapId (position m), aggroRange m, patrolRange m,
   originalPosition m).

(** Both the position and the patrol anchor lie inside the monster's map. *)
Definition in_bounds (m : Monster) : Prop :=
  isValidPosition (pos_x (position m)) (pos_y (position m))
    (mapId (position m)) = true ∧
  isValidPosition (pt_x (originalPosition m)) (pt_y (originalPosition m))
    (mapId (position m)) = true.

(** The invariants of a monster record: hp within [0, maxHp]; dead exactly
    at hp 0 and exactly while a respawn time is set; no target while idle,
    patrolling or dead; inside its map. *)
Definition wf_monster (m : Monster) : Prop :=
  0 < maxHp m ∧ 0 <= hp m <= maxHp m ∧
  (state m = dead ↔ hp m = 0) ∧
  (state m = dead ↔ is_Some (respawnTime m)) ∧
  (state m = idle ∨ state m = patrolling ∨ state m = dead →
   no_target m = true) ∧
  in_bounds m.

(** The invariants of the registry: keys are distinct, every monster is
    stored under its own id and is well formed. *)
Definition wf_registry (r : Registry) : Prop :=
  NoDup (Map_keys r) ∧ Forall (λ e, e.1 = id e.2 ∧ wf_monster e.2) r.

Global Instance wf_monster_dec m : Decision (wf_monster m).
Proof. unfold wf_monster, in_bounds. apply _. Defined.

Global Instance wf_registry_dec r : Decision (wf_registry r).
Proof. unfold wf_registry. apply _. Defined.

(** A series of attack requests on one monster, each with its clock value,
    damage and attacker, handled one after the other. *)
Fixpoint attackSequence (monsterId : string) (blows : list (Z * Z * Z))
    : M (list DamageResult) :=
  match blows with
  | [] => ret []
  | (now, damage, attackerId) :: rest =>
      let* res := damageMonster now monsterId damage attackerId in
      let* more := attackSequence monsterId rest in
      ret (res :: more)
  end.

(** No target is held in a state that has none to pursue. *)
Definition target_ok (m : Monster) : Prop :=
  state m = idle ∨ state m = patrolling ∨ state m = dead →
  no_target m = true.

(** What the AI may do to a live monster in one tick: it keeps the
    attributes fixed at spawn, the hp and mp and the absent respawn time,
    keeps the monster alive and inside its map, and leaves no target behind
    when it sends the monster back to idling or patrolling. *)
Definition ai_step (m m' : Monster) : Prop :=
  static_of m' = static_of m ∧ hp m' = hp m ∧ mp m' = mp m ∧
  respawnTime m' = respawnTime m ∧ state m' ≠ dead ∧
  (in_bounds m → in_bounds m') ∧
  (target_ok m → target_ok m').

(** A step of the service that leaves the registry and the spawn-check
    time alone and adds the messages [evs] to the outbox. *)
Definition emitted (s s' : MonsterService) (evs : list (Z * Message)) : Prop :=
  activeMonsters s' = activeMonsters s ∧
  lastSpawnCheck s' = lastSpawnCheck s ∧
  outbox s' = outbox s ++ evs.

Definition is_attack (e : Z * Message) : bool :=
  match e.2 with
  | monster_attack _ _ _ _ => true
  | _ => false
  end.

(** A handler run on the live monster [m]: it returns a monster reached
    by an [ai_step] and satisfying [post], and its messages are no attacks
    unless [loud] is set. *)
Definition ai_comp (loud : bool) (post : Monster → Prop) (m : Monster)
    (c : M Monster) : Prop :=
  ∀ s, ∃ m' s' evs,
    c s = (m', s') ∧ emitted s s' evs ∧
    (loud = false → Forall (λ e, is_attack e = false) evs) ∧
    ai_step m m' ∧ post m'.

(** The registry entry a respawn leaves. *)
Definition respawned (now : Z) (m : Monster) : Monster :=
  set_lastAction now
    (set_respawnTime None
       (set_xy (pt_x (originalPosition m)) (pt_y (originalPosition m))
          (set_target None (set_state idle (set_mp (maxMp m)
             (set_hp (maxHp m) m)))))).

(** Every draw of the run time lies in [0, 1), as [Math.random] promises. *)
Definition draws_in_unit (rt : Runtime) : Prop :=
  ∀ n, (0 <= random rt n)%Q ∧ (random rt n < 1)%Q.

(** The [reduce] of [trySpawnMonster]: the sum of the spawn weights. *)
Definition totalWeight (l : list MonsterTemplate) : Q :=
  fold_left (λ sum template, (sum + spawnChance template)%Q) l 0%Q.

(** How a tick may change the registry: the same keys in the same order;
    every entry keeps the attributes fixed at spawn; a live entry stays
    alive and keeps its hp and its absent respawn time. *)
Definition tick_rel (r r' : Registry) : Prop :=
  Map_keys r' = Map_keys r ∧
  ∀ k m, Map_get k r = Some m →
    ∃ m', Map_get k r' = Some m' ∧ static_of m' = static_of m ∧
          (state m ≠ dead →
           state m' ≠ dead ∧ hp m' = hp m ∧ respawnTime m' = respawnTime m).

(** Every live monster acted less than 1500 ms before the clock value
    [now]; 1500 ms is the shortest attack cooldown of the templates. *)
Definition fresh (now : Z) (s : MonsterService) : Prop :=
  ∀ k m, Map_get k (activeMonsters s) = Some m → state m ≠ dead →
         now - lastAction m < 1500.

(** Every live monster last acted at the clock value [now]. *)
Definition stamped (now : Z) (s : MonsterService) : Prop :=
  ∀ k m, Map_get k (activeMonsters s) = Some m → state m ≠ dead →
         lastAction m = now.

(** The messages [evs] were added to the outbox and none is an attack. *)
Definition no_attack_since (s s' : MonsterService) : Prop :=
  ∃ evs, outbox s' = outbox s ++ evs ∧
         Forall (λ e, is_attack e = false) evs.

(** Unfolds one layer of the state monad. *)
Ltac monad_unfold :=
  unfold bind, ret, getMonsters, putMonsters, storeMonster, broadcastToMap,
    setLastSpawnCheck in *; simpl in *.

(** * Properties *)

(** ** The [Map] operations *)

Lemma Map_get_set_eq k v r : Map_get k (Map_set k v r) = Some v.
Proof.
  induction r as [|[k' v'] r IH]; simpl.
  - by rewrite bool_decide_eq_true_2.
  - destruct (bool_decide (k' = k)) eqn:E; simpl.
    + by rewrite bool_decide_eq_true_2.
    + by rewrite E.
Qed.

Lemma Map_get_set_ne k k' v r :
  k ≠ k' → Map_get k' (Map_set k v r) = Map_get k' r.
Proof.
  intros Hne. induction r as [|[k0 v0] r IH]; simpl.
  - by rewrite bool_decide_eq_false_2.
  - destruct (bool_decide (k0 = k)) eqn:E; simpl.
    + apply bool_decide_eq_true_1 in E. subst k0.
      by rewrite !bool_decide_eq_false_2.
    + by rewrite IH.
Qed.

Lemma Map_keys_set_present k v r :
  is_Some (Map_get k r) → Map_keys (Map_set k v r) = Map_keys r.
Proof.
  induction r as [|[k0 v0] r IH]; simpl; intros [w Hw]; [done|].
  destruct (bool_decide (k0 = k)) eqn:E; simpl.
  - apply bool_decide_eq_true_1 in E. by subst.
  - f_equal. apply IH. eauto.
Qed.

Lemma Map_set_set k v w r : Map_set k w (Map_set k v r) = Map_set k w r.
Proof.
  induction r as [|[k0 v0] r IH]; simpl.
  - by rewrite bool_decide_eq_true_2.
  - destruct (bool_decide (k0 = k)) eqn:E; simpl.
    + by rewrite bool_decide_eq_true_2.
    + by rewrite E, IH.
Qed.

(** ** Combat *)

Lemma damageMonster_survive now k d a s m :
  Map_get k (activeMonsters s) = Some m → state m ≠ dead →
  0 < Z.max 0 (hp m - Z.max 1 (d - defense m)) →
  damageMonster now k d a s =
    (noReward,
     mkService (Map_set k (damaged d a m) (activeMonsters s))
       (lastSpawnCheck s)
       (outbox s ++
          [(mapId (position m),
            monster_damaged (id m) (Z.max 1 (d - defense m))
              (Z.max 0 (hp m - Z.max 1 (d - defense m))) (maxHp m))])
       (rng s)).
Proof.
  intros Hget Hst Hpos. unfold damageMonster, damaged. monad_unfold.
  rewrite Hget, (bool_decide_eq_false_2 _ Hst). simpl.
  rewrite (bool_decide_eq_true_2 (_ > 0)) by lia. simpl.
  by rewrite (bool_decide_eq_false_2 (_ <= 0)) by lia.
Qed.

Lemma damageMonster_slay now k d a s m :
  Map_get k (activeMonsters s) = Some m → state m ≠ dead →
  Z.max 0 (hp m - Z.max 1 (d - defense m)) = 0 →
  damageMonster now k d a s =
    (mkResult true (experience m) (goldDrop m),
     mkService
       (Map_set k (slain now (damaged d a m)) (activeMonsters s))
       (lastSpawnCheck s)
       (outbox s ++
          [(mapId (position m),
            monster_damaged (id m) (Z.max 1 (d - defense m)) 0 (maxHp m))] ++
          [(mapId (position m),
            monster_died (id m) a (experience m) (goldDrop m) (position m))])
       (rng s)).
Proof.
  intros Hget Hst Hz. unfold damageMonster, killMonster, damaged, slain.
  monad_unfold.
  rewrite Hget, (bool_decide_eq_false_2 _ Hst). simpl. rewrite Hz.
  simpl. by rewrite Map_set_set, <- app_assoc.
Qed.

Lemma damageMonster_noop now k d a s :
  (Map_get k (activeMonsters s) = None ∨
   ∃ m, Map_get k (activeMonsters s) = Some m ∧ state m = dead) →
  damageMonster now k d a s = (noReward, s).
Proof.
  unfold damageMonster. monad_unfold. intros [H|(m & H & Hd)]; rewrite H.
  - done.
  - by rewrite bool_decide_eq_true_2.
Qed.

(** C1. On a live registry entry with hp [h] and defense [f], a hit of
    [d >= 1] leaves hp [max 0 (h - max 1 (d - f))], and the call reports a
    kill exactly when that value is 0. *)
Theorem damageMonster_hp_formula now k d a s m res s' :
  Map_get k (activeMonsters s) = Some m →
  state m ≠ dead →
  1 <= d →
  damageMonster now k d a s = (res, s') →
  let newHp := Z.max 0 (hp m - Z.max 1 (d - defense m)) in
  hp <$> Map_get k (activeMonsters s') = Some newHp ∧
  (killed res = true ↔ newHp = 0).
Proof.
  intros Hget Hst _ Hrun newHp.
  destruct (decide (newHp = 0)) as [Hz|Hnz].
  - rewrite (damageMonster_slay _ _ _ _ _ _ Hget Hst Hz) in Hrun.
    injection Hrun as <- <-. simpl. rewrite Map_get_set_eq.
    unfold damaged, slain. fold newHp. rewrite Hz. simpl. done.
  - assert (0 < newHp) as Hpos by (subst newHp; lia).
    rewrite (damageMonster_survive _ _ _ _ _ _ Hget Hst Hpos) in Hrun.
    injection Hrun as <- <-. simpl. rewrite Map_get_set_eq.
    unfold damaged. fold newHp. simpl.
    rewrite bool_decide_eq_true_2 by lia. simpl. split; [done|].
    split; [done|lia].
Qed.

(** The first scenario of the specification: hp 50, defense 5, damage 20. *)
Lemma damageMonster_hp_formula_witness :
  hp <$> Map_get "monster_1" (activeMonsters hit_run.2) = Some 35 ∧
  (killed hit_run.1 = true ↔ 35 = 0).
Proof.
  apply (damageMonster_hp_formula 0 "monster_1" 20 7
           (sample_service 50 idle None) (sample_goblin 50 idle None));
    [reflexivity | discriminate | lia | reflexivity].
Defined.

(** C2. When a hit brings a live monster to hp 0, the call returns
    killed with the monster's own experience and goldDrop, and the entry is
    left dead, without target, with its respawn time 30000 ms after the
    clock value of the call. *)
Theorem damageMonster_kill_path now k d a s m res s' :
  Map_get k (activeMonsters s) = Some m →
  state m ≠ dead →
  damageMonster now k d a s = (res, s') →
  hp <$> Map_get k (activeMonsters s') = Some 0 →
  res = mkResult true (experience m) (goldDrop m) ∧
  ∃ m', Map_get k (activeMonsters s') = Some m' ∧
        state m' = dead ∧ target m' = None ∧
        respawnTime m' = Some (now + 30000) ∧
        experience m' = experience m ∧ goldDrop m' = goldDrop m.
Proof.
  intros Hget Hst Hrun Hzero.
  destruct (decide (Z.max 0 (hp m - Z.max 1 (d - defense m)) = 0)) as [Hz|Hnz].
  - rewrite (damageMonster_slay _ _ _ _ _ _ Hget Hst Hz) in Hrun.
    injection Hrun as <- <-. split; [done|]. simpl.
    rewrite Map_get_set_eq. eexists; split; [done|].
    unfold slain, damaged. simpl. rewrite Hz. simpl. done.
  - exfalso.
    assert (0 < Z.max 0 (hp m - Z.max 1 (d - defense m))) as Hpos by lia.
    rewrite (damageMonster_survive _ _ _ _ _ _ Hget Hst Hpos) in Hrun.
    injection Hrun as <- <-. simpl in Hzero.
    rewrite Map_get_set_eq in Hzero. unfold damaged in Hzero. simpl in Hzero.
    rewrite bool_decide_eq_true_2 in Hzero by lia. simpl in Hzero.
    injection Hzero as Hzero. lia.
Qed.

(** The second scenario: hp 10, defense 5, damage 100 at clock 1000. *)
Lemma damageMonster_kill_path_witness :
  kill_run.1 = mkResult true 25 5 ∧
  ∃ m', Map_get "monster_1" (activeMonsters kill_run.2) = Some m' ∧
        state m' = dead ∧ target m' = None ∧
        respawnTime m' = Some 31000 ∧
        experience m' = 25 ∧ goldDrop m' = 5.
Proof.
  apply (damageMonster_kill_path 1000 "monster_1" 100 7
           (sample_service 10 idle None) (sample_goblin 10 idle None));
    [reflexivity | discriminate | reflexivity | reflexivity].
Defined.

(** C3. A call on an id that is absent, or whose entry is dead, returns
    the zero reward and leaves the whole service state as it was; hence the
    call that follows a killing call returns the zero reward too. *)
Theorem damageMonster_missing_or_dead now k d a s :
  ((Map_get k (activeMonsters s) = None ∨
    ∃ m, Map_get k (activeMonsters s) = Some m ∧ state m = dead) →
   damageMonster now k d a s = (noReward, s)) ∧
  (∀ res s' now2 d2 a2,
     damageMonster now k d a s = (res, s') → killed res = true →
     damageMonster now2 k d2 a2 s' = (noReward, s')).
Proof.
  split; [apply damageMonster_noop|].
  intros res s' now2 d2 a2 Hrun Hk.
  destruct (Map_get k (activeMonsters s)) as [m|] eqn:Hget.
  2:{ rewrite damageMonster_noop in Hrun by auto.
      injection Hrun as <- <-. done. }
  destruct (decide (state m = dead)) as [Hd|Hst].
  { rewrite damageMonster_noop in Hrun by eauto.
    injection Hrun as <- <-. done. }
  destruct (decide (Z.max 0 (hp m - Z.max 1 (d - defense m)) = 0)) as [Hz|Hnz].
  - rewrite (damageMonster_slay _ _ _ _ _ _ Hget Hst Hz) in Hrun.
    injection Hrun as <- <-. apply damageMonster_noop. right. simpl.
    rewrite Map_get_set_eq. eauto.
  - assert (0 < Z.max 0 (hp m - Z.max 1 (d - defense m))) as Hpos by lia.
    rewrite (damageMonster_survive _ _ _ _ _ _ Hget Hst Hpos) in Hrun.
    injection Hrun as <- <-. done.
Qed.

Lemma damageMonster_missing_or_dead_witness :
  damageMonster 1000 "monster_9" 20 7 (sample_service 50 idle None)
    = (noReward, sample_service 50 idle None) ∧
  damageMonster 1000 "monster_1" 100 7 kill_run.2 = (noReward, kill_run.2).
Proof.
  split.
  - apply (proj1 (damageMonster_missing_or_dead 1000 "monster_9" 20 7
                    (sample_service 50 idle None))).
    left. reflexivity.
  - apply (proj2 (damageMonster_missing_or_dead 1000 "monster_1" 100 7
                    (sample_service 10 idle None))
             (mkResult true 25 5)); reflexivity.
Defined.

(** ** Respawn *)

(** The loop body of [updateMonsters] on a dead entry: it respawns the
    monster when the clock is past its respawn time and does nothing
    otherwise. *)
Lemma updateMonster_dead rt now k s m :
  Map_get k (activeMonsters s) = Some m → state m = dead →
  updateMonster rt now k s =
    match respawnTime m with
    | Some t => if bool_decide (now > t) then respawnMonster now k s
                else (tt, s)
    | None => (tt, s)
    end.
Proof.
  intros Hget Hst. unfold updateMonster. unfold bind at 1.
  unfold getMonsters at 1. rewrite Hget, Hst. simpl.
  destruct (respawnTime m) as [t|]; [|done]. by case_bool_decide.
Qed.

(** C4. A dead entry whose respawn time has passed is respawned by the
    loop body of the tick, and the respawn leaves the entry, under the same
    key and with the same id, at full hp and mp, at its original
    coordinates, without target or respawn time, and idle. *)
Theorem respawnMonster_resets rt now k s m :
  Map_get k (activeMonsters s) = Some m →
  state m = dead →
  (∀ t, respawnTime m = Some t → now > t →
        updateMonster rt now k s = respawnMonster now k s) ∧
  Map_keys (activeMonsters (respawnMonster now k s).2)
    = Map_keys (activeMonsters s) ∧
  ∃ m', Map_get k (activeMonsters (respawnMonster now k s).2) = Some m' ∧
        id m' = id m ∧
        hp m' = maxHp m' ∧ maxHp m' = maxHp m ∧
        mp m' = maxMp m' ∧ maxMp m' = maxMp m ∧
        pos_x (position m') = pt_x (originalPosition m') ∧
        pos_y (position m') = pt_y (originalPosition m') ∧
        mapId (position m') = mapId (position m) ∧
        originalPosition m' = originalPosition m ∧
        target m' = None ∧ respawnTime m' = None ∧ state m' = idle.
Proof.
  intros Hget Hdead. split.
  { intros t Ht Hnow. rewrite (updateMonster_dead _ _ _ _ _ Hget Hdead), Ht.
    by rewrite bool_decide_eq_true_2. }
  unfold respawnMonster. monad_unfold.
  rewrite Hget. simpl. split.
  - apply Map_keys_set_present. eauto.
  - rewrite Map_get_set_eq. eexists. split; [done|]. simpl. done.
Qed.

Lemma respawnMonster_resets_witness :
  updateMonster (constant_runtime 0.5) 31500 "monster_1"
      (sample_service 0 dead (Some 31000))
    = respawnMonster 31500 "monster_1" (sample_service 0 dead (Some 31000)) ∧
  Map_keys (activeMonsters
              (respawnMonster 31500 "monster_1"
                 (sample_service 0 dead (Some 31000))).2) = ["monster_1"] ∧
  ∃ m', Map_get "monster_1"
          (activeMonsters
             (respawnMonster 31500 "monster_1"
                (sample_service 0 dead (Some 31000))).2) = Some m' ∧
        id m' = "monster_1" ∧
        hp m' = maxHp m' ∧ maxHp m' = 50 ∧
        mp m' = maxMp m' ∧ maxMp m' = 50 ∧
        pos_x (position m') = pt_x (originalPosition m') ∧
        pos_y (position m') = pt_y (originalPosition m') ∧
        mapId (position m') = 1 ∧
        originalPosition m' = mkPoint 100 100 ∧
        target m' = None ∧ respawnTime m' = None ∧ state m' = idle.
Proof.
  destruct (respawnMonster_resets (constant_runtime 0.5) 31500 "monster_1"
              (sample_service 0 dead (Some 31000))
              (sample_goblin 0 dead (Some 31000))) as (Htrigger & Hpost);
    [reflexivity | reflexivity |].
  split; [|exact Hpost].
  apply (Htrigger 31000); [reflexivity | lia].
Defined.

(** ** Messages of the mutating calls *)

Lemma generateRandomPosition_state rt k s :
  ∃ n, (generateRandomPosition rt k s).2 =
       mkService (activeMonsters s) (lastSpawnCheck s) (outbox s)
         (n + rng s)%nat.
Proof.
  unfold generateRandomPosition.
  destruct (mapBoundaries k); unfold Math_random; monad_unfold.
  - exists 2%nat. reflexivity.
  - exists 0%nat. by destruct s.
Qed.

(** A spawn stores one idle monster on the requested map under that
    monster's id and announces it with one [monster_spawn] message. *)
Lemma spawnMonster_spec rt now tpl k s :
  ∃ m' n,
    spawnMonster rt now tpl k s =
      (tt, mkService (Map_set (id m') m' (activeMonsters s))
             (lastSpawnCheck s)
             (outbox s ++ [(k, monster_spawn (getMonsterPublicData m'))])
             (n + rng s)%nat) ∧
    mapId (position m') = k ∧ state m' = idle ∧ type m' = tpl_type tpl ∧
    attack m' =
      Qfloor (inject_Z (baseAttack tpl) *
              (1 + inject_Z (level m' - baseLevel tpl) * 0.2)) ∧
    ∃ r, r = random rt (rng (generateRandomPosition rt k s).2) ∧
         level m' = baseLevel tpl + Qfloor (r * inject_Z (levelVariance tpl)).
Proof.
  unfold spawnMonster. unfold bind at 1.
  destruct (generateRandomPosition_state rt k s) as [n Hn].
  destruct (generateRandomPosition rt k s) as [pos s1].
  cbn [snd] in Hn. subst s1.
  cbv [bind ret getMonsters putMonsters storeMonster broadcastToMap
       Math_random].
  cbn [activeMonsters lastSpawnCheck outbox rng id].
  eexists (mkMonster _ _ _ _ _ _ _ _ _ _ _ _ _ _ _ _ _ _ _ _), (S (S n)).
  split; [reflexivity|]. cbn [position mapId state type attack level].
  repeat split. eexists. split; reflexivity.
Qed.

Lemma respawnMonster_outbox now k s m :
  Map_get k (activeMonsters s) = Some m →
  ∃ m', Map_get k (activeMonsters (respawnMonster now k s).2) = Some m' ∧
        outbox (respawnMonster now k s).2 =
          outbox s ++ [(mapId (position m'),
                        monster_spawn (getMonsterPublicData m'))].
Proof.
  intros Hget. unfold respawnMonster. monad_unfold. rewrite Hget. simpl.
  rewrite Map_get_set_eq. eexists. split; [done|]. done.
Qed.

(** C5, as the code has it.  A spawn and a respawn each add exactly one
    [monster_spawn] message carrying the public data of the entry they
    leave; a hit that the monster survives adds exactly one
    [monster_damaged] message carrying the hp left; a hit that kills adds
    two messages, [monster_damaged] with hp 0 and then [monster_died]. *)
Theorem mutating_calls_messages rt now k s :
  (∀ tpl mapId_,
     let s' := (spawnMonster rt now tpl mapId_ s).2 in
     ∃ m', Map_get (id m') (activeMonsters s') = Some m' ∧
           outbox s' =
             outbox s ++ [(mapId_, monster_spawn (getMonsterPublicData m'))]) ∧
  (∀ m, Map_get k (activeMonsters s) = Some m →
     let s' := (respawnMonster now k s).2 in
     ∃ m', Map_get k (activeMonsters s') = Some m' ∧
           outbox s' =
             outbox s ++ [(mapId (position m'),
                           monster_spawn (getMonsterPublicData m'))]) ∧
  (∀ m d a, Map_get k (activeMonsters s) = Some m → state m ≠ dead →
     let s' := (damageMonster now k d a s).2 in
     ∃ m', Map_get k (activeMonsters s') = Some m' ∧
       let hit := (mapId (position m'),
                   monster_damaged (id m') (Z.max 1 (d - defense m))
                     (hp m') (maxHp m')) in
       if bool_decide (0 < hp m')
       then outbox s' = outbox s ++ [hit]
       else outbox s' =
              outbox s ++
              [hit; (mapId (position m'),
                     monster_died (id m') a (experience m') (goldDrop m')
                       (position m'))]).
Proof.
  split; [|split].
  - intros tpl mapId_ s'. subst s'.
    destruct (spawnMonster_spec rt now tpl mapId_ s) as (m' & n & Hrun & _).
    exists m'. rewrite Hrun. simpl. by rewrite Map_get_set_eq.
  - intros m Hget. by apply respawnMonster_outbox with (m := m).
  - intros m d a Hget Hst s'. subst s'.
    destruct (decide (Z.max 0 (hp m - Z.max 1 (d - defense m)) = 0))
      as [Hz|Hnz].
    + rewrite (damageMonster_slay _ _ _ _ _ _ Hget Hst Hz). simpl.
      rewrite Map_get_set_eq. eexists. split; [done|].
      unfold slain, damaged. simpl. rewrite Hz. simpl. done.
    + assert (0 < Z.max 0 (hp m - Z.max 1 (d - defense m))) as Hpos by lia.
      rewrite (damageMonster_survive _ _ _ _ _ _ Hget Hst Hpos). simpl.
      rewrite Map_get_set_eq. eexists. split; [done|].
      unfold damaged. simpl.
      rewrite (bool_decide_eq_true_2 (_ > 0)) by lia. simpl.
      rewrite bool_decide_eq_true_2 by lia. done.
Qed.

Lemma mutating_calls_messages_witness :
  (∃ m', Map_get "monster_1"
           (activeMonsters
              (respawnMonster 1000 "monster_1"
                 (sample_service 50 idle None)).2) = Some m' ∧
         outbox (respawnMonster 1000 "monster_1"
                   (sample_service 50 idle None)).2 =
           [(mapId (position m'), monster_spawn (getMonsterPublicData m'))]) ∧
  (∃ m', Map_get "monster_1" (activeMonsters hit_run.2) = Some m' ∧
         outbox hit_run.2 =
           [(mapId (position m'),
             monster_damaged (id m') 15 (hp m') (maxHp m'))]).
Proof.
  split.
  - apply (proj1 (proj2 (mutating_calls_messages (constant_runtime 0.5) 1000
                           "monster_1" (sample_service 50 idle None)))
             (sample_goblin 50 idle None)).
    reflexivity.
  - destruct (proj2 (proj2 (mutating_calls_messages (constant_runtime 0.5) 0
                              "monster_1" (sample_service 50 idle None)))
                (sample_goblin 50 idle None) 20 7) as (m' & Hm' & Hout);
      [reflexivity | discriminate |].
    exists m'. split; [exact Hm'|].
    vm_compute in Hm'. injection Hm' as <-. exact Hout.
Defined.

(** A killing hit adds two messages to the outbox, not one. *)
Lemma kill_emits_two_messages :
  outbox kill_run.2 =
    outbox (sample_service 10 idle None) ++
    [(1, monster_damaged "monster_1" 95 0 50);
     (1, monster_died "monster_1" 7 25 5 (mkPosition 100 100 1))] ∧
  ¬ emits_exactly_one (sample_service 10 idle None) kill_run.2.
Proof.
  split; [reflexivity|]. intros [e He]. vm_compute in He. discriminate.
Qed.

(** ** Monster attacks *)

Lemma inject_Z_pos n : 0 < n → (0 < inject_Z n)%Q.
Proof. intros H. change 0%Q with (inject_Z 0). by rewrite <- Zlt_Qlt. Qed.

Lemma inject_Z_nonneg n : 0 <= n → (0 <= inject_Z n)%Q.
Proof. intros H. change 0%Q with (inject_Z 0). by rewrite <- Zle_Qle. Qed.







(** Every monster the service spawns from its six templates has attack at
    least 15, so its attack messages carry damage of at least 10. *)
Lemma spawned_attack_ge_15 rt now tpl k s :
  tpl ∈ templates →
  (0 <= random rt (rng (generateRandomPosition rt k s).2))%Q →
  ∃ m', activeMonsters (spawnMonster rt now tpl k s).2
          = Map_set (id m') m' (activeMonsters s) ∧
        15 <= attack m'.
Proof.
  intros Htpl Hr.
  destruct (spawnMonster_spec rt now tpl k s)
    as (m' & n & Hrun & _ & _ & _ & Hatt & r & -> & Hlvl).
  exists m'. rewrite Hrun. split; [done|]. rewrite Hatt.
  assert (0 <= levelVariance tpl ∧ 15 <= baseAttack tpl) as [Hv Hb].
  { rewrite !list_elem_of_In in Htpl. simpl in Htpl.
    repeat (destruct Htpl as [<-|Htpl]; [simpl; lia|]). done. }
  assert (0 <= level m' - baseLevel tpl) as Hd.
  { rewrite Hlvl. ring_simplify (baseLevel tpl + Qfloor
      (random rt (rng (generateRandomPosition rt k s).2)
       * inject_Z (levelVariance tpl)) - baseLevel tpl).
    change 0 with (Qfloor 0). apply Qfloor_resp_le.
    apply Qmult_le_0_compat; [exact Hr | by apply inject_Z_nonneg]. }
  transitivity (baseAttack tpl); [exact Hb|].
  rewrite <- (Qfloor_Z (baseAttack tpl)) at 1. apply Qfloor_resp_le.
  rewrite <- (Qmult_1_r (inject_Z (baseAttack tpl))) at 1.
  apply Qmult_le_l.
  - apply inject_Z_pos. lia.
  - rewrite <- (Qplus_0_r 1) at 1. apply Qplus_le_r.
    apply Qmult_le_0_compat; [by apply inject_Z_nonneg | done].
Qed.

(** ** The chase timeout *)

Lemma monsterTemplates_get_Some t : is_Some (monsterTemplates_get t).
Proof. destruct t; eexists; reflexivity. Qed.

Lemma attackSpeed_ge_1500 t tpl :
  monsterTemplates_get t = Some tpl → 1500 <= attackSpeed tpl.
Proof. destruct t; intros [= <-]; simpl; lia. Qed.

(** The branch of [handleChaseState] that gives the target up is taken
    exactly when more than 10000 ms separate the call from [lastAction]. *)
Lemma handleChaseState_cases now m :
  no_target m = false →
  handleChaseState now m =
    if bool_decide (now - lastAction m > 10000)
    then set_target None (set_state patrolling m)
    else set_state attacking m.
Proof.
  intros Ht. unfold handleChaseState. rewrite Ht.
  by destruct (monsterTemplates_get_Some (type m)) as [tpl ->].
Qed.

(** One pass of the loop body over a chasing monster that holds a target:
    [lastAction] is the time of the previous pass, so with passes at most
    10000 ms apart the monster goes on to attacking and keeps the target. *)
Lemma updateMonster_chasing rt now k s m :
  Map_get k (activeMonsters s) = Some m →
  state m = chasing → no_target m = false →
  now - lastAction m <= 10000 →
  updateMonster rt now k s =
    (tt, mkService
           (Map_set k (set_lastAction now (set_state attacking m))
              (activeMonsters s))
           (lastSpawnCheck s) (outbox s) (rng s)).
Proof.
  intros Hget Hst Ht Hdt. unfold updateMonster. monad_unfold.
  rewrite Hget, Hst. simpl. rewrite handleChaseState_cases by done.
  rewrite (bool_decide_eq_false_2 (_ > _)) by lia. simpl. done.
Qed.

(** One pass over an attacking monster that holds a target: with passes
    less than 1500 ms apart the cooldown never elapses, so no attack is made,
    no message is sent, and the target stays. *)
Lemma updateMonster_attacking rt now k s m :
  Map_get k (activeMonsters s) = Some m →
  state m = attacking → no_target m = false →
  now - lastAction m < 1500 →
  updateMonster rt now k s =
    (tt, mkService (Map_set k (set_lastAction now m) (activeMonsters s))
           (lastSpawnCheck s) (outbox s) (rng s)).
Proof.
  intros Hget Hst Ht Hdt. unfold updateMonster. monad_unfold.
  rewrite Hget, Hst. simpl. unfold handleAttackState. rewrite Ht.
  destruct (monsterTemplates_get (type m)) as [tpl|] eqn:Htpl.
  - pose proof (attackSpeed_ge_1500 _ _ Htpl).
    rewrite (bool_decide_eq_false_2 (_ >= _)) by lia. monad_unfold.
    by rewrite Hst.
  - monad_unfold. by rewrite Hst.
Qed.

(** C7 at a concrete run.  Player 7 hits the sample goblin at time 0, which
    puts it in the chasing state with target 7.  After 21 runs of the game
    loop, 500 ms apart, the clock is at 10500: the goblin has made no attack
    (the outbox holds nothing but the first hit), yet it still holds its
    target, in the attacking state. *)
Theorem chase_target_kept_past_10s :
  (state <$> Map_get "monster_1" (activeMonsters hit_run.2) = Some chasing ∧
   target <$> Map_get "monster_1" (activeMonsters hit_run.2)
     = Some (Some "7")) ∧
  (state <$> Map_get "monster_1" (activeMonsters after_21_ticks)
     = Some attacking ∧
   target <$> Map_get "monster_1" (activeMonsters after_21_ticks)
     = Some (Some "7") ∧
   lastAction <$> Map_get "monster_1" (activeMonsters after_21_ticks)
     = Some 10500) ∧
  outbox after_21_ticks = [(1, monster_damaged "monster_1" 15 35 50)].
Proof. vm_compute. repeat split. Qed.

(** ** Counter objects *)

Section Counters.
Context `{Countable K}.
Implicit Types (obj : gmap K Z) (k : K).

Lemma counter_sum_insert_fresh k v obj :
  obj !! k = None → counter_sum (<[k:=v]> obj) = v + counter_sum obj.
Proof.
  intros Hk. unfold counter_sum.
  apply (map_fold_insert_L (λ _ v acc, v + acc)); [intros; lia | done].
Qed.

Lemma counter_sum_bump k obj : counter_sum (bump k obj) = counter_sum obj + 1.
Proof.
  unfold bump. destruct (obj !! k) as [v|] eqn:Hk; simpl.
  - rewrite <- insert_delete_eq.
    rewrite counter_sum_insert_fresh by apply lookup_delete_eq.
    unfold counter_sum at 2.
    rewrite (map_fold_delete_L (λ _ v acc, v + acc) 0 k v obj);
      [|intros; lia|done].
    fold (counter_sum (delete k obj)). lia.
  - rewrite counter_sum_insert_fresh by done. lia.
Qed.

Lemma bump_lookup k k' obj :
  default 0 (bump k obj !! k') =
    default 0 (obj !! k') + (if bool_decide (k = k') then 1 else 0).
Proof.
  unfold bump. case_bool_decide as Hk.
  - subst k'. by rewrite lookup_insert_eq.
  - rewrite lookup_insert_ne by done. lia.
Qed.

(** A counting loop [for (a of l) if (P a) obj[key a]++]. *)
Lemma counting_loop_lookup {A} (key : A → K) (P : A → bool) l obj k :
  default 0
    (fold_left (λ c a, if P a then bump (key a) c else c) l obj !! k) =
  default 0 (obj !! k) +
  Z.of_nat
    (length (List.filter (λ a, bool_decide (key a = k) && P a) l)).
Proof.
  revert obj. induction l as [|a l IH]; intros obj; simpl; [lia|].
  rewrite IH. destruct (P a); simpl.
  - rewrite bump_lookup. case_bool_decide; simpl; lia.
  - rewrite andb_false_r. done.
Qed.

Lemma counting_loop_sum {A} (key : A → K) (P : A → bool) l obj :
  counter_sum (fold_left (λ c a, if P a then bump (key a) c else c) l obj) =
  counter_sum obj + Z.of_nat (length (List.filter P l)).
Proof.
  revert obj. induction l as [|a l IH]; intros obj; simpl; [lia|].
  rewrite IH. destruct (P a); simpl; [|done].
  rewrite counter_sum_bump. lia.
Qed.

End Counters.

Lemma counter_sum_empty `{Countable K} : counter_sum (∅ : gmap K Z) = 0.
Proof. unfold counter_sum. by rewrite map_fold_empty. Qed.

(** ** Statistics *)

(** The three components of [getStats] are three counting loops. *)
Lemma getStats_components l st :
  let step := λ stats monster,
    if alive monster
    then mkStats (totalMonsters stats + 1)
           (bump (mapId (position monster)) (monstersPerMap stats))
           (bump (type_tag (type monster)) (monstersPerType stats))
    else stats in
  totalMonsters (fold_left step l st) =
    totalMonsters st + Z.of_nat (length (List.filter alive l)) ∧
  monstersPerMap (fold_left step l st) =
    fold_left (λ c m, if alive m then bump (mapId (position m)) c else c)
      l (monstersPerMap st) ∧
  monstersPerType (fold_left step l st) =
    fold_left (λ c m, if alive m then bump (type_tag (type m)) c else c)
      l (monstersPerType st).
Proof.
  intros step. revert st. induction l as [|m l IH]; intros st; simpl.
  - split; [lia|done].
  - destruct (IH (step st m)) as (-> & -> & ->). subst step. cbv beta.
    destruct (alive m); simpl; (split; [lia|done]).
Qed.

Lemma type_tag_inj t1 t2 : type_tag t1 = type_tag t2 → t1 = t2.
Proof. by destruct t1, t2. Qed.

Lemma filter_tag_alive t (l : list Monster) :
  length (List.filter
            (λ a, bool_decide (type_tag (type a) = type_tag t) && alive a) l) =
  length (List.filter (λ m, bool_decide (type m = t)) (List.filter alive l)).
Proof.
  induction l as [|m l IH]; simpl; [done|].
  destruct (alive m); simpl.
  - rewrite andb_true_r.
    rewrite (bool_decide_ext (type_tag (type m) = type_tag t) (type m = t)).
    + destruct (bool_decide (type m = t)); simpl; by rewrite IH.
    + split; [apply type_tag_inj | by intros ->].
  - by rewrite andb_false_r.
Qed.

(** C10. [getStats] agrees with [getActiveMonsters]: the total is the
    number of monsters the unfiltered query returns, and so are the sums of
    both counter objects; each per-map counter is the size of the filtered
    query, and each per-type counter the number of live monsters of that
    type.  All of them range over live monsters only. *)
Theorem getStats_consistent s :
  let stats := getStats s in
  totalMonsters stats = Z.of_nat (length (getActiveMonsters None s)) ∧
  counter_sum (monstersPerMap stats) = totalMonsters stats ∧
  counter_sum (monstersPerType stats) = totalMonsters stats ∧
  (∀ k, default 0 (monstersPerMap stats !! k) =
        Z.of_nat (length (getActiveMonsters (Some k) s))) ∧
  (∀ t, default 0 (monstersPerType stats !! type_tag t) =
        Z.of_nat (length (List.filter (λ m, bool_decide (type m = t))
                            (getActiveMonsters None s)))) ∧
  Forall (λ m, state m ≠ dead) (getActiveMonsters None s).
Proof.
  intros stats. subst stats. unfold getStats, getActiveMonsters.
  destruct (getStats_components (Map_values (activeMonsters s))
              (mkStats 0 ∅ ∅)) as (Ht & Hm & Hty).
  cbv zeta in Ht, Hm, Hty. rewrite Ht, Hm, Hty. simpl.
  rewrite !counting_loop_sum.
  pose proof (counter_sum_empty (K:=Z)) as E1.
  pose proof (counter_sum_empty (K:=string)) as E2.
  split; [lia|]. split; [lia|]. split; [lia|]. split; [|split].
  - intros k. rewrite counting_loop_lookup. by rewrite lookup_empty.
  - intros t. rewrite counting_loop_lookup, lookup_empty. simpl.
    by rewrite filter_tag_alive.
  - apply Forall_forall. intros m Hin%list_elem_of_In.
    apply filter_In in Hin as [_ Hal].
    unfold alive in Hal. by apply bool_decide_eq_true_1 in Hal.
Qed.

(** ** The spawn check *)

Lemma filter_Map_set_length (P : Monster → bool) key v r :
  (length (List.filter P (Map_values (Map_set key v r))) ≤
   length (List.filter P (Map_values r)) + (if P v then 1 else 0))%nat.
Proof.
  unfold Map_values. induction r as [|[k0 v0] r IH]; simpl.
  - destruct (P v); simpl; lia.
  - destruct (bool_decide (k0 = key)); simpl.
    + destruct (P v), (P v0); simpl; lia.
    + destruct (P v0); simpl; lia.
Qed.

(** The table built by the first loop of [checkSpawning] holds the census. *)
Lemma monsterCountPerMap_census s k :
  default 0 (monsterCountPerMap (activeMonsters s) !! k) =
    Z.of_nat (census s k).
Proof.
  unfold monsterCountPerMap, census, getActiveMonsters.
  rewrite counting_loop_lookup, lookup_empty. simpl. done.
Qed.

(** [trySpawnMonster] either leaves registry and outbox alone, or stores
    one monster placed on the requested map and announces it there. *)
Lemma trySpawnMonster_effect rt now k s :
  let s' := (trySpawnMonster rt now k s).2 in
  lastSpawnCheck s' = lastSpawnCheck s ∧
  ((activeMonsters s' = activeMonsters s ∧ outbox s' = outbox s) ∨
   ∃ m', mapId (position m') = k ∧
         activeMonsters s' = Map_set (id m') m' (activeMonsters s) ∧
         outbox s' =
           outbox s ++ [(k, monster_spawn (getMonsterPublicData m'))]).
Proof.
  unfold trySpawnMonster. case_bool_decide; [by split; [|left]|].
  cbv [bind Math_random]. cbn [fst snd].
  destruct (selectTemplate _ _) as [tpl|]; [|by split; [|left]].
  destruct (Qltb _ _); [by split; [|left]|].
  match goal with |- context [spawnMonster rt now tpl k ?s1] =>
    destruct (spawnMonster_spec rt now tpl k s1) as (m' & n & -> & Hk & _)
  end.
  cbn [snd activeMonsters outbox lastSpawnCheck]. split; [done|].
  right. by exists m'.
Qed.

(** One round of the second loop of [checkSpawning], for map [j]. *)
Lemma spawn_round rt now (counts : gmap Z Z) j s s' :
  s' = ((if bool_decide (default 0 (counts !! j) < 20)
         then trySpawnMonster rt now j else ret tt) s).2 →
  lastSpawnCheck s' = lastSpawnCheck s ∧
  ∃ evs, outbox s' = outbox s ++ evs ∧
    ∀ k,
      let room := if bool_decide (j = k ∧ default 0 (counts !! j) < 20)
                  then 1%nat else 0%nat in
      (census s' k ≤ census s k + room)%nat ∧
      (length (sent_to k evs) ≤ room)%nat.
Proof.
  intros ->. case_bool_decide as Hroom.
  2:{ split; [done|]. exists []. split; [by rewrite app_nil_r|].
      intros k. simpl. lia. }
  destruct (trySpawnMonster_effect rt now j s)
    as (Hl & [[Hreg Hout]|(m' & Hm' & Hreg & Hout)]).
  - split; [done|]. exists []. split; [by rewrite app_nil_r|].
    intros k. unfold census, getActiveMonsters. rewrite Hreg. simpl. lia.
  - split; [done|]. eexists. split; [exact Hout|].
    intros k. unfold census, getActiveMonsters. rewrite Hreg.
    split.
    + etransitivity; [apply filter_Map_set_length|].
      apply Nat.add_le_mono_l. rewrite Hm'.
      case_bool_decide as Hj; simpl.
      * rewrite bool_decide_eq_true_2 by tauto. destruct (alive m'); lia.
      * rewrite (bool_decide_eq_false_2 (j = k ∧ _)) by tauto. lia.
    + unfold sent_to. simpl. case_bool_decide as Hj; simpl.
      * rewrite bool_decide_eq_true_2 by tauto. lia.
      * lia.
Qed.

Lemma forEach_cons {A} (a : A) l body s :
  (forEach (a :: l) body s).2 = (forEach l body (body a s).2).2.
Proof. simpl. unfold bind. by destruct (body a s). Qed.

Lemma sent_to_app k evs1 evs2 :
  sent_to k (evs1 ++ evs2) = sent_to k evs1 ++ sent_to k evs2.
Proof. unfold sent_to. apply List.filter_app. Qed.

(** C9. One run of the spawn check announces at most one spawn per map,
    and none on a map whose census was 20 or more when the check began; it
    raises no census by more than one, and none that was 20 or more; so a
    census that was at most 20 is at most 20 afterwards. *)
Theorem checkSpawning_respects_cap rt now s :
  let s' := (checkSpawning rt now s).2 in
  ∃ evs, outbox s' = outbox s ++ evs ∧
    ∀ k,
      (length (sent_to k evs) ≤ 1)%nat ∧
      ((20 ≤ census s k)%nat → sent_to k evs = []) ∧
      (census s' k ≤ census s k + 1)%nat ∧
      ((20 ≤ census s k)%nat → (census s' k ≤ census s k)%nat) ∧
      ((census s k ≤ 20)%nat → (census s' k ≤ 20)%nat).
Proof.
  intros s'. subst s'.
  destruct (decide (now - lastSpawnCheck s < 5000)) as [Hgate|Hgate].
  { unfold checkSpawning. rewrite bool_decide_eq_true_2 by done.
    exists []. split; [by rewrite app_nil_r|]. intros k. simpl.
    repeat split; lia. }
  set (counts := monsterCountPerMap (activeMonsters s)).
  set (s0 := mkService (activeMonsters s) now (outbox s) (rng s)).
  set (body := λ k : Z,
         if bool_decide (default 0 (counts !! k) < 20)
         then trySpawnMonster rt now k else ret tt).
  assert ((checkSpawning rt now s).2
          = (body 3 (body 2 (body 1 s0).2).2).2) as ->.
  { unfold checkSpawning. rewrite bool_decide_eq_false_2 by done.
    transitivity (forEach [1; 2; 3] body s0).2; [reflexivity|].
    by rewrite !forEach_cons. }
  assert (∀ k, census s0 k = census s k) as Hc0 by done.
  assert (outbox s0 = outbox s) as Hout0 by done.
  set (s1 := (body 1 s0).2). set (s2 := (body 2 s1).2).
  set (s3 := (body 3 s2).2).
  destruct (spawn_round rt now counts 1 s0 s1 eq_refl)
    as (_ & evs1 & Ho1 & H1).
  destruct (spawn_round rt now counts 2 s1 s2 eq_refl)
    as (_ & evs2 & Ho2 & H2).
  destruct (spawn_round rt now counts 3 s2 s3 eq_refl)
    as (_ & evs3 & Ho3 & H3).
  cbv zeta in H1, H2, H3.
  exists (evs1 ++ evs2 ++ evs3). split.
  { rewrite Ho3, Ho2, Ho1, Hout0. by rewrite <- !app_assoc. }
  intros k.
  destruct (H1 k) as [C1 E1], (H2 k) as [C2 E2], (H3 k) as [C3 E3].
  rewrite Hc0 in C1.
  assert (∀ j, default 0 (counts !! j) = Z.of_nat (census s j)) as Hcnt
    by (intros j; apply monsterCountPerMap_census).
  rewrite !Hcnt in C1, C2, C3, E1, E2, E3.
  assert (length (sent_to k (evs1 ++ evs2 ++ evs3)) =
          length (sent_to k evs1) + length (sent_to k evs2)
          + length (sent_to k evs3))%nat as Hlen
    by (rewrite !sent_to_app, !length_app; lia).
  repeat case_bool_decide; destruct_and?; simplify_eq;
    repeat split; intros; try (apply length_zero_iff_nil); lia.
Qed.

Lemma checkSpawning_respects_cap_witness :
  (census (checkSpawning (constant_runtime 0) 5000
             (sample_service 50 idle None)).2 1 ≤ 20)%nat.
Proof.
  destruct (checkSpawning_respects_cap (constant_runtime 0) 5000
              (sample_service 50 idle None)) as (evs & _ & Hcap).
  apply (Hcap 1). vm_compute. lia.
Defined.

(** ** Chat fan-out *)

Section ChatProperties.
Variable isOpen : Socket → bool.

Lemma fan_out_fold (P : PlayerSession → bool) msg sessions (out : Sent) :
  fold_left (λ out session, if P session then out ++ [(ws session, msg)]
                            else out) sessions out =
  out ++ map (λ session, (ws session, msg)) (List.filter P sessions).
Proof.
  revert out. induction sessions as [|x l IH]; intros out; simpl.
  - by rewrite app_nil_r.
  - rewrite IH. destruct (P x); simpl; [|done]. by rewrite <- app_assoc.
Qed.

Lemma broadcast_spec sessions msg out :
  broadcast isOpen sessions msg out =
  out ++ map (λ session, (ws session, msg))
           (List.filter (λ session, isOpen (ws session)) sessions).
Proof. unfold broadcast. apply fan_out_fold. Qed.

Lemma broadcastToMap_all_spec sessions k msg out :
  GameService_broadcastToMap isOpen sessions k msg None out =
  out ++ map (λ session, (ws session, msg))
           (List.filter (λ session, in_map k session && isOpen (ws session))
              sessions).
Proof.
  unfold GameService_broadcastToMap.
  rewrite <- (fan_out_fold
                (λ session, in_map k session && isOpen (ws session))).
  f_equal.
Qed.


End ChatProperties.



(** * Further properties of the monster service *)

(** ** Attack requests *)

Lemma Map_keys_set_get k v r m :
  Map_get k r = Some m → Map_keys (Map_set k v r) = Map_keys r.
Proof. intros H. apply Map_keys_set_present. eauto. Qed.

(** The three ways a call of [damageMonster] can go. *)
Lemma damageMonster_cases now k d a s :
  (damageMonster now k d a s = (noReward, s) ∧
   (Map_get k (activeMonsters s) = None ∨
    ∃ m, Map_get k (activeMonsters s) = Some m ∧ state m = dead)) ∨
  (∃ m, Map_get k (activeMonsters s) = Some m ∧ state m ≠ dead ∧
        0 < Z.max 0 (hp m - Z.max 1 (d - defense m)) ∧
        (damageMonster now k d a s).1 = noReward ∧
        activeMonsters (damageMonster now k d a s).2 =
          Map_set k (damaged d a m) (activeMonsters s)) ∨
  (∃ m, Map_get k (activeMonsters s) = Some m ∧ state m ≠ dead ∧
        Z.max 0 (hp m - Z.max 1 (d - defense m)) = 0 ∧
        (damageMonster now k d a s).1
          = mkResult true (experience m) (goldDrop m) ∧
        activeMonsters (damageMonster now k d a s).2 =
          Map_set k (slain now (damaged d a m)) (activeMonsters s)).
Proof.
  destruct (Map_get k (activeMonsters s)) as [m|] eqn:Hget.
  2:{ left. split; [|by left]. apply damageMonster_noop. by left. }
  destruct (decide (state m = dead)) as [Hd|Hst].
  { left. split; [|right; eauto]. apply damageMonster_noop. right. eauto. }
  right.
  destruct (decide (Z.max 0 (hp m - Z.max 1 (d - defense m)) = 0)) as [Hz|Hnz].
  - right. exists m.
    rewrite (damageMonster_slay _ _ _ _ _ _ Hget Hst Hz). done.
  - left. exists m.
    assert (0 < Z.max 0 (hp m - Z.max 1 (d - defense m))) as Hpos by lia.
    rewrite (damageMonster_survive _ _ _ _ _ _ Hget Hst Hpos). done.
Qed.

Lemma damaged_fields d a m :
  static_of (damaged d a m) = static_of m ∧
  position (damaged d a m) = position m ∧
  respawnTime (damaged d a m) = respawnTime m ∧
  lastAction (damaged d a m) = lastAction m ∧
  mp (damaged d a m) = mp m ∧
  hp (damaged d a m) = Z.max 0 (hp m - Z.max 1 (d - defense m)).
Proof. unfold damaged. simpl. by case_bool_decide. Qed.

Lemma damaged_alive d a m :
  0 < Z.max 0 (hp m - Z.max 1 (d - defense m)) →
  state (damaged d a m) = chasing ∧
  target (damaged d a m) = Some (pretty a).
Proof.
  intros H. unfold damaged. simpl.
  by rewrite (bool_decide_eq_true_2 (_ > 0)) by lia.
Qed.

(** X1. An attack request touches one registry entry only: the key list,
    every other entry, the spawn-check time and the random index stay as
    they were, and the attributes fixed at spawn of the entry it hits stay
    too. *)
Theorem damageMonster_frame now k d a s :
  Map_keys (activeMonsters (damageMonster now k d a s).2)
    = Map_keys (activeMonsters s) ∧
  lastSpawnCheck (damageMonster now k d a s).2 = lastSpawnCheck s ∧
  rng (damageMonster now k d a s).2 = rng s ∧
  (∀ k', k' ≠ k →
     getMonsterById k' (damageMonster now k d a s).2 = getMonsterById k' s) ∧
  (∀ m, getMonsterById k s = Some m →
     ∃ m', getMonsterById k (damageMonster now k d a s).2 = Some m' ∧
           static_of m' = static_of m ∧ position m' = position m).
Proof.
  unfold getMonsterById.
  destruct (Map_get k (activeMonsters s)) as [m|] eqn:Hget.
  2:{ rewrite damageMonster_noop by auto. simpl. rewrite Hget.
      repeat split; done. }
  destruct (decide (state m = dead)) as [Hd|Hst].
  { rewrite damageMonster_noop by eauto. simpl. rewrite Hget.
    repeat split; try done. intros ? [= <-]. eauto. }
  destruct (damaged_fields d a m) as (Hs & Hp & _).
  destruct (decide (Z.max 0 (hp m - Z.max 1 (d - defense m)) = 0)) as [Hz|Hnz].
  - rewrite (damageMonster_slay _ _ _ _ _ _ Hget Hst Hz). simpl.
    rewrite (Map_keys_set_get _ _ _ _ Hget), Map_get_set_eq.
    repeat split; try done.
    + intros k' Hne. by apply Map_get_set_ne.
    + intros ? [= <-]. eexists. split; [done|]. by rewrite <- Hs, <- Hp.
  - assert (0 < Z.max 0 (hp m - Z.max 1 (d - defense m))) as Hpos by lia.
    rewrite (damageMonster_survive _ _ _ _ _ _ Hget Hst Hpos). simpl.
    rewrite (Map_keys_set_get _ _ _ _ Hget), Map_get_set_eq.
    repeat split; try done.
    + intros k' Hne. by apply Map_get_set_ne.
    + intros ? [= <-]. eauto.
Qed.

Lemma damageMonster_frame_witness :
  getMonsterById "monster_9" hit_run.2 = None ∧
  ∃ m', getMonsterById "monster_1" hit_run.2 = Some m' ∧
        static_of m' = static_of (sample_goblin 50 idle None) ∧
        position m' = mkPosition 100 100 1.
Proof.
  destruct (damageMonster_frame 0 "monster_1" 20 7
              (sample_service 50 idle None)) as (_ & _ & _ & Hother & Hsame).
  split.
  - apply (Hother "monster_9"). discriminate.
  - apply (Hsame (sample_goblin 50 idle None)). reflexivity.
Defined.



Lemma attackSequence_cons k now d a rest s :
  attackSequence k ((now, d, a) :: rest) s =
    ((damageMonster now k d a s).1
       :: (attackSequence k rest (damageMonster now k d a s).2).1,
     (attackSequence k rest (damageMonster now k d a s).2).2).
Proof.
  simpl. unfold bind, ret. destruct (damageMonster now k d a s) as [res s1].
  simpl. by destruct (attackSequence k rest s1).
Qed.

(** Requests on an id that is absent or dead do nothing, however many. *)
Lemma attackSequence_noop k blows s :
  (Map_get k (activeMonsters s) = None ∨
   ∃ m, Map_get k (activeMonsters s) = Some m ∧ state m = dead) →
  attackSequence k blows s = (List.map (λ _, noReward) blows, s).
Proof.
  intros H. induction blows as [|[[now d] a] rest IH]; [done|].
  rewrite attackSequence_cons, damageMonster_noop by done. simpl.
  by rewrite IH.
Qed.

Lemma filter_killed_noReward {A} (l : list A) :
  List.filter killed (List.map (λ _, noReward) l) = [].
Proof. by induction l. Qed.

(** X3. However a series of attack requests on one monster goes, at most
    one of them is answered with a kill: the reward is never paid twice. *)
Theorem attackSequence_one_reward k blows s :
  (length (List.filter killed (attackSequence k blows s).1) ≤ 1)%nat.
Proof.
  revert s. induction blows as [|[[now d] a] rest IH]; intros s; [simpl; lia|].
  rewrite attackSequence_cons. cbn [fst].
  destruct (damageMonster_cases now k d a s)
    as [[Hrun _]|[(m & _ & _ & _ & Hres & _)|(m & _ & _ & _ & Hres & Hreg)]].
  - rewrite Hrun. simpl. apply IH.
  - rewrite Hres. simpl. apply IH.
  - rewrite Hres. simpl.
    rewrite attackSequence_noop.
    + cbn [fst]. rewrite filter_killed_noReward. simpl. lia.
    + right. rewrite Hreg, Map_get_set_eq. eauto.
Qed.



(** ** What the AI handlers do to one monster *)

Lemma ai_step_refl m : state m ≠ dead → ai_step m m.
Proof. intros H. unfold ai_step. by split_and!. Qed.

Lemma ai_step_trans m1 m2 m3 : ai_step m1 m2 → ai_step m2 m3 → ai_step m1 m3.
Proof.
  intros (A1 & A2 & A3 & A4 & A5 & A6 & A7) (B1 & B2 & B3 & B4 & B5 & B6 & B7).
  unfold ai_step. split_and!; try congruence; auto.
Qed.

Lemma emitted_refl s : emitted s s [].
Proof. unfold emitted. split_and!; try done. by rewrite app_nil_r. Qed.

Lemma emitted_trans s1 s2 s3 evs1 evs2 :
  emitted s1 s2 evs1 → emitted s2 s3 evs2 → emitted s1 s3 (evs1 ++ evs2).
Proof.
  intros (A1 & A2 & A3) (B1 & B2 & B3). unfold emitted.
  split_and!; try congruence. by rewrite B3, A3, app_assoc.
Qed.

Lemma Math_random_emitted rt s : emitted s (Math_random rt s).2 [].
Proof. unfold emitted. split_and!; try done. simpl. by rewrite app_nil_r. Qed.

(** Assignments to [state], [target], [position] and [lastAction]. *)
Lemma set_state_step st m :
  state m ≠ dead → st ≠ dead →
  (st = idle ∨ st = patrolling →
   state m = idle ∨ state m = patrolling ∨ no_target m = true) →
  ai_step m (set_state st m).
Proof.
  intros Hm Hst Ht. unfold ai_step, in_bounds, target_ok. simpl.
  split_and!; try done. intros Hok [?|[?|?]]; [| |congruence].
  - destruct Ht as [?|[?|?]]; auto.
  - destruct Ht as [?|[?|?]]; auto.
Qed.

Lemma set_target_step t m :
  state m ≠ dead →
  (state m = idle ∨ state m = patrolling → t = None) →
  ai_step m (set_target t m).
Proof.
  intros Hm Ht. unfold ai_step, in_bounds, target_ok. simpl.
  split_and!; try done. intros _ [?|[?|?]]; [| |congruence].
  - rewrite Ht by auto. done.
  - rewrite Ht by auto. done.
Qed.

Lemma set_xy_step a b m :
  state m ≠ dead →
  isValidPosition a b (mapId (position m)) = true →
  ai_step m (set_xy a b m).
Proof.
  intros Hm Hv. unfold ai_step, in_bounds, target_ok. simpl.
  split_and!; try done. by intros [_ ?].
Qed.

Lemma set_lastAction_step now m :
  state m ≠ dead → ai_step m (set_lastAction now m).
Proof.
  intros Hm. unfold ai_step, in_bounds, target_ok. simpl. by split_and!.
Qed.

Lemma ai_step_alive m m' : ai_step m m' → state m' ≠ dead.
Proof. by intros (_ & _ & _ & _ & H & _). Qed.

Lemma ai_comp_ret loud (post : Monster → Prop) m m' :
  ai_step m m' → post m' → ai_comp loud post m (ret m').
Proof.
  intros Hstep Hpost s. exists m', s, []. split; [done|].
  split_and!; [apply emitted_refl | done | done | done].
Qed.

Lemma ai_comp_random rt loud post m (k : Q → M Monster) :
  (∀ r, ai_comp loud post m (k r)) →
  ai_comp loud post m (let* r := Math_random rt in k r).
Proof.
  intros Hk s. cbv [bind Math_random].
  destruct (Hk (random rt (rng s))
              (mkService (activeMonsters s) (lastSpawnCheck s) (outbox s)
                 (S (rng s)))) as (m' & s' & evs & Hrun & Hem & Hq & Hst).
  exists m', s', evs. split; [exact Hrun|]. split; [|done].
  destruct Hem as (? & ? & ?). unfold emitted. by split_and!.
Qed.

Lemma ai_comp_broadcast loud post m k msg (c : M Monster) :
  (loud = false → is_attack (k, msg) = false) →
  ai_comp loud post m c →
  ai_comp loud post m (broadcastToMap k msg ;; c).
Proof.
  intros Hmsg Hc s. cbv [bind broadcastToMap].
  destruct (Hc (mkService (activeMonsters s) (lastSpawnCheck s)
                  (outbox s ++ [(k, msg)]) (rng s)))
    as (m' & s' & evs & Hrun & Hem & Hq & Hst & Hp).
  exists m', s', ((k, msg) :: evs). split; [exact Hrun|].
  destruct Hem as (? & ? & Hout). split_and!; try done.
  - unfold emitted. split_and!; try done.
    simpl in Hout. by rewrite Hout, <- app_assoc.
  - intros Hl. constructor; [by apply Hmsg | by apply Hq].
Qed.

Lemma ai_comp_bind loud (mid post : Monster → Prop) m c (k : Monster → M Monster) :
  ai_comp loud mid m c →
  (∀ m1, ai_step m m1 → mid m1 → ai_comp loud post m1 (k m1)) →
  ai_comp loud post m (let* m1 := c in k m1).
Proof.
  intros Hc Hk s. unfold bind.
  destruct (Hc s) as (m1 & s1 & evs1 & -> & Hem1 & Hq1 & Hst1 & Hmid).
  destruct (Hk m1 Hst1 Hmid s1) as (m2 & s2 & evs2 & -> & Hem2 & Hq2 & Hst2 & Hp).
  exists m2, s2, (evs1 ++ evs2). split; [done|].
  split_and!; [by eapply emitted_trans | | by eapply ai_step_trans | done].
  intros Hl. apply Forall_app. auto.
Qed.

Lemma ai_comp_weaken loud (post post' : Monster → Prop) m c :
  (∀ m', ai_step m m' → post m' → post' m') →
  ai_comp loud post m c → ai_comp loud post' m c.
Proof.
  intros Hw Hc s. destruct (Hc s) as (m' & s' & evs & ? & ? & ? & ? & ?).
  exists m', s', evs. split_and!; auto.
Qed.

Lemma handleIdleState_comp rt m :
  state m = idle → ai_comp false (λ _, True) m (handleIdleState rt m).
Proof.
  intros Hst. unfold handleIdleState. apply ai_comp_random. intros r.
  apply ai_comp_ret; [|done]. destruct (Qltb _ _).
  - apply set_state_step; [congruence | done | auto].
  - apply ai_step_refl. congruence.
Qed.

Lemma moveMonsterTowards_comp rt m x y :
  state m ≠ dead →
  ai_comp false (λ m', state m' = state m) m (moveMonsterTowards rt m x y).
Proof.
  intros Hst. unfold moveMonsterTowards.
  destruct (monsterTemplates_get (type m)) as [tpl|];
    [|by apply ai_comp_ret; [apply ai_step_refl|]].
  destruct (Qeq_bool _ 0); [by apply ai_comp_ret; [apply ai_step_refl|]|].
  destruct (isValidPosition _ _ _) eqn:Hv;
    [|by apply ai_comp_ret; [apply ai_step_refl|]].
  unfold broadcastMonsterMovement. apply ai_comp_broadcast; [done|].
  apply ai_comp_ret; [by apply set_xy_step | done].
Qed.

Lemma handlePatrolState_comp rt m :
  state m = patrolling → ai_comp false (λ _, True) m (handlePatrolState rt m).
Proof.
  intros Hst. assert (state m ≠ dead) as Hal by congruence.
  unfold handlePatrolState.
  destruct (monsterTemplates_get (type m)) as [tpl|];
    [|by apply ai_comp_ret; [apply ai_step_refl|]].
  apply (ai_comp_bind _ (λ m', state m' = state m)).
  - destruct (Qltb _ _); [by apply moveMonsterTowards_comp|].
    apply ai_comp_random. intros r.
    destruct (isValidPosition _ _ _) eqn:Hv;
      [|by apply ai_comp_ret; [apply ai_step_refl|]].
    unfold broadcastMonsterMovement. apply ai_comp_broadcast; [done|].
    apply ai_comp_ret; [by apply set_xy_step | done].
  - intros m1 Hstep Hst1. apply ai_comp_random. intros r.
    apply ai_comp_ret; [|done]. destruct (Qltb _ _).
    + apply set_state_step; [by apply ai_step_alive in Hstep | done |].
      intros _. right. left. congruence.
    + apply ai_step_refl. by apply ai_step_alive in Hstep.
Qed.

Lemma handleChaseState_step now m :
  state m ≠ dead → ai_step m (handleChaseState now m).
Proof.
  intros Hst. unfold handleChaseState.
  destruct (no_target m) eqn:Ht; [apply set_state_step; auto|].
  destruct (monsterTemplates_get (type m)); [|by apply ai_step_refl].
  case_bool_decide.
  - unfold ai_step, in_bounds, target_ok, no_target. simpl. by split_and!.
  - apply set_state_step; [done | done | by intros [?|?]].
Qed.

Lemma performMonsterAttack_comp rt m :
  state m ≠ dead → ai_comp true (λ _, True) m (performMonsterAttack rt m).
Proof.
  intros Hst. unfold performMonsterAttack.
  destruct (no_target m); [by apply ai_comp_ret; [apply ai_step_refl|]|].
  apply ai_comp_random. intros r. apply ai_comp_broadcast; [done|].
  apply ai_comp_random. intros r'. apply ai_comp_ret; [|done].
  destruct (Qltb _ _); [|by apply ai_step_refl].
  apply set_state_step; [done | done | by intros [?|?]].
Qed.

Lemma ai_comp_quiet (post : Monster → Prop) m c loud :
  ai_comp false post m c → ai_comp loud post m c.
Proof.
  intros Hc s. destruct (Hc s) as (m' & s' & evs & ? & ? & Hq & ? & ?).
  exists m', s', evs. split_and!; auto.
Qed.

(** The attack handler is loud only when the cooldown has elapsed, which
    takes at least 1500 ms since [lastAction]. *)
Lemma handleAttackState_comp rt now m loud :
  state m ≠ dead →
  (loud = false → now - lastAction m < 1500) →
  ai_comp loud (λ _, True) m (handleAttackState rt now m).
Proof.
  intros Hst Hloud. unfold handleAttackState.
  destruct (no_target m) eqn:Ht.
  { apply ai_comp_ret; [|done]. apply set_state_step; auto. }
  destruct (monsterTemplates_get (type m)) as [tpl|] eqn:Htpl;
    [|by apply ai_comp_ret; [apply ai_step_refl|]].
  case_bool_decide as Hcool; [|by apply ai_comp_ret; [apply ai_step_refl|]].
  destruct loud.
  2:{ pose proof (attackSpeed_ge_1500 _ _ Htpl). specialize (Hloud eq_refl).
      lia. }
  apply (ai_comp_bind _ (λ _, True)); [by apply performMonsterAttack_comp|].
  intros m1 Hstep _. apply ai_comp_ret; [|done].
  apply set_lastAction_step. by apply ai_step_alive in Hstep.
Qed.

Lemma checkForPlayerAggro_comp rt m :
  state m ≠ dead → ai_comp false (λ _, True) m (checkForPlayerAggro rt m).
Proof.
  intros Hst. unfold checkForPlayerAggro. apply ai_comp_random. intros r.
  destruct (Qltb _ _); [|by apply ai_comp_ret; [apply ai_step_refl|]].
  apply ai_comp_random. intros r'. apply ai_comp_ret; [|done].
  unfold ai_step, in_bounds, target_ok. simpl. split_and!; try done.
  intros _ [?|[?|?]]; done.
Qed.

Lemma bind_assoc {A B C} (c : M A) (f : A → M B) (g : B → M C) s :
  (let* y := (let* x := c in f x) in g y) s
  = (let* x := c in let* y := f x in g y) s.
Proof. unfold bind. by destruct (c s). Qed.

(** The loop body of [updateMonsters] on a live entry: the AI handlers take
    the monster through an [ai_step], the entry is stored back under its key
    with [lastAction] set to the clock, and the messages are no attacks
    unless at least 1500 ms have passed since the entry's [lastAction]. *)
Lemma updateMonster_live rt now k s m loud :
  Map_get k (activeMonsters s) = Some m →
  state m ≠ dead →
  (loud = false → now - lastAction m < 1500) →
  ∃ m' evs,
    activeMonsters (updateMonster rt now k s).2
      = Map_set k (set_lastAction now m') (activeMonsters s) ∧
    lastSpawnCheck (updateMonster rt now k s).2 = lastSpawnCheck s ∧
    outbox (updateMonster rt now k s).2 = outbox s ++ evs ∧
    (loud = false → Forall (λ e, is_attack e = false) evs) ∧
    ai_step m m'.
Proof.
  intros Hget Hst Hloud.
  assert (ai_comp loud (λ _, True) m
            (let* monster :=
               match state m with
               | idle => handleIdleState rt m
               | patrolling => handlePatrolState rt m
               | chasing => ret (handleChaseState now m)
               | attacking => handleAttackState rt now m
               | dead => ret m
               end in
             if bool_decide (state monster = idle)
                || bool_decide (state monster = patrolling)
             then checkForPlayerAggro rt monster
             else ret monster)) as Hcomp.
  { apply (ai_comp_bind _ (λ _, True)).
    - destruct (state m) eqn:E.
      + by apply ai_comp_quiet, handleIdleState_comp.
      + by apply ai_comp_quiet, handlePatrolState_comp.
      + apply ai_comp_ret; [|done]. apply handleChaseState_step. congruence.
      + apply handleAttackState_comp; [congruence | done].
      + done.
    - intros m1 Hstep _. apply ai_step_alive in Hstep.
      destruct (_ || _); [by apply ai_comp_quiet, checkForPlayerAggro_comp|].
      by apply ai_comp_ret; [apply ai_step_refl|]. }
  destruct (Hcomp s) as (m' & s' & evs & Hrun & (Hreg & Hlsc & Hout) & Hq
                         & Hstep & _).
  exists m', evs.
  assert (updateMonster rt now k s
          = storeMonster k (set_lastAction now m') s') as ->.
  { unfold updateMonster. unfold bind at 1. unfold getMonsters at 1.
    rewrite Hget, (bool_decide_eq_false_2 _ Hst).
    unfold bind at 1 in Hrun. unfold bind at 1.
    match goal with |- context [let (_, _) := ?c s in _] =>
      destruct (c s) as [m1 s1] end.
    unfold bind at 1. by rewrite Hrun. }
  unfold storeMonster, bind, getMonsters, putMonsters. simpl.
  rewrite Hreg. by split_and!.
Qed.

(** ** The invariants of the registry *)

Lemma Map_get_In k r m : Map_get k r = Some m → In (k, m) r.
Proof.
  induction r as [|[k0 v0] r IH]; simpl; [done|].
  case_bool_decide as Hk; [|auto]. intros [= <-]. subst. by left.
Qed.

Lemma Map_get_None_keys k r : Map_get k r = None → k ∉ Map_keys r.
Proof.
  induction r as [|[k0 v0] r IH]; simpl; [intros _; apply not_elem_of_nil|].
  case_bool_decide as Hk; [done|]. intros H. apply not_elem_of_cons.
  split; [congruence | by apply IH].
Qed.

Lemma Map_keys_set_absent k v r :
  Map_get k r = None → Map_keys (Map_set k v r) = Map_keys r ++ [k].
Proof.
  induction r as [|[k0 v0] r IH]; simpl; [done|].
  case_bool_decide as Hk; [done|]. intros H. simpl. by rewrite IH.
Qed.

Lemma Map_set_Forall (P : string * Monster → Prop) k v r :
  Forall P r → P (k, v) → Forall P (Map_set k v r).
Proof.
  intros Hr Hv. induction Hr as [|[k0 v0] r H0 Hr IH]; simpl.
  - by constructor.
  - case_bool_decide; constructor; auto.
Qed.

Lemma wf_registry_set k v r :
  wf_registry r → k = id v → wf_monster v → wf_registry (Map_set k v r).
Proof.
  intros [Hnd Hall] Hk Hv. split.
  - destruct (Map_get k r) as [m|] eqn:Hget.
    + by rewrite (Map_keys_set_get _ _ _ _ Hget).
    + rewrite (Map_keys_set_absent _ _ _ Hget). apply NoDup_app.
      split_and!; [done | | apply NoDup_singleton].
      intros x Hx ->%list_elem_of_singleton.
      by apply (Map_get_None_keys _ _ Hget).
  - by apply Map_set_Forall.
Qed.

Lemma wf_registry_get k r m :
  wf_registry r → Map_get k r = Some m → k = id m ∧ wf_monster m.
Proof.
  intros [_ Hall] Hget. apply Map_get_In in Hget.
  rewrite Forall_forall in Hall. apply (Hall (k, m)).
  by apply list_elem_of_In.
Qed.

Lemma ai_step_wf m m' :
  wf_monster m → state m ≠ dead → ai_step m m' →
  wf_monster m' ∧ id m' = id m.
Proof.
  intros (W1 & W2 & W3 & W4 & W5 & W6) Hal (S1 & S2 & S3 & S4 & S5 & S6 & S7).
  assert (maxHp m' = maxHp m ∧ id m' = id m) as [Hmax Hid]
    by (unfold static_of in S1; split; congruence).
  split; [|done]. unfold wf_monster. rewrite Hmax, S2, S4.
  split_and!; try done; try lia; auto.
  - split; [done|]. intros Hz. by apply W3 in Hz.
  - split; [done|]. intros Hz. by apply W4 in Hz.
  - by apply S7.
Qed.

Lemma set_lastAction_wf now m : wf_monster m → wf_monster (set_lastAction now m).
Proof. done. Qed.

Lemma respawned_wf now m : wf_monster m → wf_monster (respawned now m).
Proof.
  intros (W1 & W2 & W3 & W4 & W5 & [_ W6]).
  unfold wf_monster, in_bounds, no_target. simpl. split_and!; try done; try lia.
  split; [done|lia].
Qed.


Lemma respawnMonster_eq now k s m :
  Map_get k (activeMonsters s) = Some m →
  respawnMonster now k s =
    (tt, mkService (Map_set k (respawned now m) (activeMonsters s))
           (lastSpawnCheck s)
           (outbox s ++
              [(mapId (position m),
                monster_spawn (getMonsterPublicData (respawned now m)))])
           (rng s)).
Proof. intros Hget. unfold respawnMonster. monad_unfold. by rewrite Hget. Qed.

Lemma updateMonster_absent rt now k s :
  Map_get k (activeMonsters s) = None → updateMonster rt now k s = (tt, s).
Proof.
  intros Hget. unfold updateMonster. unfold bind at 1.
  unfold getMonsters at 1. by rewrite Hget.
Qed.

Lemma forEach_preserves {A} (P : MonsterService → Prop) (body : A → M unit) l s :
  (∀ a s, P s → P (body a s).2) → P s → P (forEach l body s).2.
Proof.
  intros Hbody. revert s. induction l as [|a l IH]; intros s Hs; [done|].
  rewrite forEach_cons. apply IH, Hbody, Hs.
Qed.



(** ** The tick *)

Lemma updateMonster_dead_entry rt now k s m :
  Map_get k (activeMonsters s) = Some m → state m = dead →
  updateMonster rt now k s =
    match respawnTime m with
    | Some t =>
        if bool_decide (now > t)
        then (tt, mkService (Map_set k (respawned now m) (activeMonsters s))
                    (lastSpawnCheck s)
                    (outbox s ++
                       [(mapId (position m),
                         monster_spawn
                           (getMonsterPublicData (respawned now m)))])
                    (rng s))
        else (tt, s)
    | None => (tt, s)
    end.
Proof.
  intros Hget Hst. rewrite (updateMonster_dead _ _ _ _ _ Hget Hst).
  destruct (respawnTime m); [|done]. case_bool_decide; [|done].
  by apply respawnMonster_eq.
Qed.

Lemma respawned_static now m : static_of (respawned now m) = static_of m.
Proof. done. Qed.

Lemma updateMonster_wf rt now k s :
  wf_registry (activeMonsters s) →
  wf_registry (activeMonsters (updateMonster rt now k s).2).
Proof.
  intros Hwf. destruct (Map_get k (activeMonsters s)) as [m|] eqn:Hget.
  2:{ by rewrite updateMonster_absent. }
  destruct (wf_registry_get _ _ _ Hwf Hget) as [Hk Hm].
  destruct (decide (state m = dead)) as [Hd|Hal].
  - rewrite (updateMonster_dead_entry _ _ _ _ _ Hget Hd).
    destruct (respawnTime m); [|done]. case_bool_decide; [|done]. simpl.
    apply wf_registry_set; [done | done | by apply respawned_wf].
  - destruct (updateMonster_live rt now k s m true Hget Hal)
      as (m' & evs & -> & _ & _ & _ & Hstep); [done|].
    destruct (ai_step_wf _ _ Hm Hal Hstep) as [Hm' Hid].
    apply wf_registry_set; [done | simpl; congruence | done].
Qed.

(** X6. A tick of the monster AI keeps the invariants of the registry,
    whatever the random draws: distinct keys, every monster stored under its
    id, hp within [0, maxHp], dead exactly at hp 0 and exactly while a
    respawn time is set, no target while idle, patrolling or dead, every
    monster inside the bounds of its map. *)
Theorem updateMonsters_keeps_invariants rt now s :
  wf_registry (activeMonsters s) →
  wf_registry (activeMonsters (updateMonsters rt now s).2).
Proof.
  intros Hwf. unfold updateMonsters. unfold bind at 1. unfold getMonsters at 1.
  apply (forEach_preserves (λ s, wf_registry (activeMonsters s))); [|done].
  intros k s1. apply updateMonster_wf.
Qed.

Lemma updateMonsters_keeps_invariants_witness :
  wf_registry
    (activeMonsters (updateMonsters (constant_runtime 0) 500 hit_run.2).2).
Proof.
  apply (updateMonsters_keeps_invariants (constant_runtime 0) 500 hit_run.2).
  apply (bool_decide_unpack _). vm_compute. exact I.
Defined.

(** ** Spawning *)

Lemma scaled_in_range (r lo hi : Q) :
  (0 <= r)%Q → (r <= 1)%Q → (lo <= hi)%Q →
  (lo <= r * (hi - lo) + lo)%Q ∧ (r * (hi - lo) + lo <= hi)%Q.
Proof. intros. split; nra. Qed.

Lemma mapBoundaries_ordered k b :
  mapBoundaries k = Some b → (minX b <= maxX b)%Q ∧ (minY b <= maxY b)%Q.
Proof.
  unfold mapBoundaries. repeat case_bool_decide; intros [= <-]; done.
Qed.

Lemma generateRandomPosition_valid rt k s b :
  mapBoundaries k = Some b →
  (0 <= random rt (rng s) <= 1)%Q →
  (0 <= random rt (S (rng s)) <= 1)%Q →
  isValidPosition (pt_x (generateRandomPosition rt k s).1)
    (pt_y (generateRandomPosition rt k s).1) k = true.
Proof.
  intros Hb [Hx0 Hx1] [Hy0 Hy1]. unfold generateRandomPosition, isValidPosition.
  rewrite Hb. cbv [bind ret Math_random]. cbn [fst snd rng pt_x pt_y].
  destruct (mapBoundaries_ordered _ _ Hb) as [HX HY].
  destruct (scaled_in_range _ _ _ Hx0 Hx1 HX) as [? ?].
  destruct (scaled_in_range _ _ _ Hy0 Hy1 HY) as [? ?].
  rewrite !andb_true_iff, !Qle_bool_iff. done.
Qed.

Lemma scaled_ge (v : Z) (mult : Q) :
  0 <= v → (1 <= mult)%Q → v <= Qfloor (inject_Z v * mult).
Proof.
  intros Hv Hm. rewrite <- (Qfloor_Z v) at 1. apply Qfloor_resp_le.
  pose proof (inject_Z_nonneg v Hv). nra.
Qed.

Lemma levelMultiplier_ge_1 (r : Q) (variance : Z) :
  (0 <= r)%Q → 0 <= variance →
  (1 <= 1 + inject_Z (Qfloor (r * inject_Z variance)) * 0.2)%Q.
Proof.
  intros Hr Hv.
  assert (0 <= Qfloor (r * inject_Z variance)) as Hfl.
  { change 0 with (Qfloor 0). apply Qfloor_resp_le.
    apply Qmult_le_0_compat; [done | by apply inject_Z_nonneg]. }
  apply inject_Z_nonneg in Hfl. nra.
Qed.

Lemma templates_facts tpl :
  tpl ∈ templates →
  0 <= levelVariance tpl ∧ 50 <= baseHp tpl ∧ (0 < spawnChance tpl)%Q ∧
  Forall (λ k, is_Some (mapBoundaries k)) (spawnMaps tpl).
Proof.
  intros Htpl. rewrite !list_elem_of_In in Htpl. simpl in Htpl.
  repeat (destruct Htpl as [<-|Htpl];
          [simpl; split_and!; try lia; try done;
           repeat constructor; by eexists|]).
  done.
Qed.

(** A spawn from a built-in template on a map that has boundaries stores a
    well-formed monster: idle, at full hp, placed inside the map. *)
Lemma spawnMonster_wf rt now tpl k s :
  draws_in_unit rt → tpl ∈ templates → is_Some (mapBoundaries k) →
  ∃ m' n,
    spawnMonster rt now tpl k s =
      (tt, mkService (Map_set (id m') m' (activeMonsters s))
             (lastSpawnCheck s)
             (outbox s ++ [(k, monster_spawn (getMonsterPublicData m'))])
             (n + rng s)%nat) ∧
    wf_monster m' ∧ state m' = idle ∧ hp m' = maxHp m' ∧
    lastAction m' = now ∧ mapId (position m') = k ∧
    type m' = tpl_type tpl ∧ name m' = tpl_name tpl.
Proof.
  intros Hdraws Htpl [b Hb].
  destruct (templates_facts tpl Htpl) as (Hvar & Hhp & _ & _).
  pose proof (generateRandomPosition_valid rt k s b Hb) as Hvalid.
  unfold spawnMonster. unfold bind at 1.
  destruct (generateRandomPosition_state rt k s) as [n Hn].
  destruct (generateRandomPosition rt k s) as [pos s1].
  cbn [fst snd] in Hn, Hvalid. subst s1.
  cbv [bind ret getMonsters putMonsters storeMonster broadcastToMap
       Math_random].
  cbn [activeMonsters lastSpawnCheck outbox rng id].
  eexists (mkMonster _ _ _ _ _ _ _ _ _ _ _ _ _ _ _ _ _ _ _ _), (S (S n)).
  split; [reflexivity|].
  cbn [position mapId state type name hp maxHp lastAction].
  split_and!; try done.
  destruct (Hdraws (n + rng s)%nat) as [Hr0 _].
  pose proof (levelMultiplier_ge_1 _ _ Hr0 Hvar) as Hmult.
  assert (baseHp tpl <=
          Qfloor (inject_Z (baseHp tpl) *
                  (1 + inject_Z (baseLevel tpl +
                       Qfloor (random rt (n + rng s) *
                               inject_Z (levelVariance tpl))
                       - baseLevel tpl) * 0.2))) as Hfull.
  { apply scaled_ge; [lia|].
    replace (baseLevel tpl +
             Qfloor (random rt (n + rng s) * inject_Z (levelVariance tpl))
             - baseLevel tpl)
      with (Qfloor (random rt (n + rng s) * inject_Z (levelVariance tpl)))
      by lia.
    exact Hmult. }
  unfold wf_monster, in_bounds, no_target.
  cbn [position mapId state hp maxHp respawnTime target originalPosition
       pos_x pos_y pt_x pt_y].
  assert (isValidPosition (pt_x pos) (pt_y pos) k = true) as Hpos.
  { apply Hvalid.
    - destruct (Hdraws (rng s)) as [? ?]. split; [done|by apply Qlt_le_weak].
    - destruct (Hdraws (S (rng s))) as [? ?].
      split; [done|by apply Qlt_le_weak]. }
  split_and!; try done; try lia. split; [done|lia].
Qed.

Lemma selectTemplate_In x l t : selectTemplate x l = Some t → In t l.
Proof.
  revert x. induction l as [|u l IH]; intros x; simpl; [done|].
  destruct (Qle_bool _ 0); [intros [= <-]; by left|]. intros H. right. eauto.
Qed.

Lemma weight_acc (l : list MonsterTemplate) (a : Q) :
  (fold_left (λ sum template, sum + spawnChance template) l a
   == a + totalWeight l)%Q.
Proof.
  unfold totalWeight. revert a. induction l as [|u l IH]; intros a; simpl.
  - ring.
  - rewrite (IH (a + spawnChance u)%Q), (IH (0 + spawnChance u)%Q). ring.
Qed.

Lemma totalWeight_cons u l :
  (totalWeight (u :: l) == spawnChance u + totalWeight l)%Q.
Proof. unfold totalWeight at 1. simpl. rewrite weight_acc. ring. Qed.

Lemma totalWeight_nonneg l :
  Forall (λ u, (0 <= spawnChance u)%Q) l → (0 <= totalWeight l)%Q.
Proof.
  induction 1 as [|u l Hu Hl IH]; [done|]. rewrite totalWeight_cons. lra.
Qed.

(** X7. The weighted choice of [trySpawnMonster] picks a template exactly
    on its own stretch of the draw range: with non-negative weights before
    it, the template [t] is chosen for every draw above the sum of the
    weights before it (any draw at all for the first template) and up to
    that sum plus its own weight; and a chosen template is always one of
    the list. *)
Theorem selectTemplate_stretch x l1 t l2 :
  Forall (λ u, (0 <= spawnChance u)%Q) l1 →
  (l1 = [] ∨ (totalWeight l1 < x)%Q) →
  (x <= totalWeight l1 + spawnChance t)%Q →
  selectTemplate x (l1 ++ t :: l2) = Some t ∧
  (∀ y u, selectTemplate y (l1 ++ t :: l2) = Some u → In u (l1 ++ t :: l2)).
Proof.
  intros Hnn Hlo Hhi. split; [|intros y u; apply selectTemplate_In].
  revert x Hlo Hhi. induction Hnn as [|u l1 Hu Hl1 IH]; intros x Hlo Hhi.
  - simpl. unfold totalWeight in Hhi. simpl in Hhi.
    assert (Qle_bool (x - spawnChance t) 0 = true) as ->; [|done].
    apply Qle_bool_iff. lra.
  - destruct Hlo as [?|Hlo]; [done|]. rewrite totalWeight_cons in Hlo, Hhi.
    pose proof (totalWeight_nonneg _ Hl1) as Hnn.
    cbn [app selectTemplate].
    assert (Qle_bool (x - spawnChance u) 0 = false) as ->.
    { apply not_true_is_false. rewrite Qle_bool_iff. lra. }
    apply IH; [|lra]. destruct l1; [by left|right; lra].
Qed.

Lemma selectTemplate_stretch_witness :
  selectTemplate 1.1 (List.filter (λ tpl, bool_decide (2 ∈ spawnMaps tpl))
                        templates)
    = List.nth_error templates 1.
Proof.
  apply (selectTemplate_stretch 1.1 [List.hd (mkTemplate "" goblin 0 0 0 0 0 0
                                        0 0 0 0 0 [] 0) templates]
           (mkTemplate "Forest Wolf" wolf 3 2 80 25 8 45 8 70 50 1500 40
              [2] 0.6)
           [mkTemplate "Orc Berserker" orc 8 3 150 40 15 100 20 60 40 2500 30
              [2; 3] 0.4]).
  - repeat constructor. simpl. discriminate.
  - right. vm_compute. reflexivity.
  - vm_compute. discriminate.
Defined.

(** What [trySpawnMonster] can do, with draws in [0, 1). *)
Lemma trySpawnMonster_cases rt now k s :
  draws_in_unit rt →
  lastSpawnCheck (trySpawnMonster rt now k s).2 = lastSpawnCheck s ∧
  ((activeMonsters (trySpawnMonster rt now k s).2 = activeMonsters s ∧
    outbox (trySpawnMonster rt now k s).2 = outbox s) ∨
   ∃ tpl m',
     tpl ∈ templates ∧ k ∈ spawnMaps tpl ∧
     type m' = tpl_type tpl ∧ name m' = tpl_name tpl ∧
     wf_monster m' ∧ state m' = idle ∧ hp m' = maxHp m' ∧
     lastAction m' = now ∧ mapId (position m') = k ∧
     activeMonsters (trySpawnMonster rt now k s).2
       = Map_set (id m') m' (activeMonsters s) ∧
     outbox (trySpawnMonster rt now k s).2
       = outbox s ++ [(k, monster_spawn (getMonsterPublicData m'))]).
Proof.
  intros Hdraws. unfold trySpawnMonster.
  case_bool_decide; [by split; [|left]|].
  cbv [bind Math_random]. cbn [fst snd].
  destruct (selectTemplate _ _) as [tpl|] eqn:Hsel; [|by split; [|left]].
  destruct (Qltb _ _); [by split; [|left]|].
  apply selectTemplate_In, filter_In in Hsel as [Htpl Hk].
  apply list_elem_of_In in Htpl. apply bool_decide_eq_true_1 in Hk.
  destruct (templates_facts tpl Htpl) as (_ & _ & _ & Hmaps).
  rewrite Forall_forall in Hmaps. specialize (Hmaps k Hk).
  match goal with |- context [spawnMonster rt now tpl k ?s1] =>
    destruct (spawnMonster_wf rt now tpl k s1 Hdraws Htpl Hmaps)
      as (m' & n & -> & Hwf & Hst & Hhp & Hla & Hmap & Hty & Hnm)
  end.
  cbn [snd activeMonsters outbox lastSpawnCheck]. split; [done|].
  right. exists tpl, m'. by split_and!.
Qed.

Lemma checkSpawning_unfold rt now s :
  ¬ now - lastSpawnCheck s < 5000 →
  (checkSpawning rt now s).2 =
    (forEach [1; 2; 3]
       (λ k, if bool_decide
                  (default 0 (monsterCountPerMap (activeMonsters s) !! k) < 20)
             then trySpawnMonster rt now k else ret tt)
       (mkService (activeMonsters s) now (outbox s) (rng s))).2.
Proof.
  intros Hgate. unfold checkSpawning. by rewrite bool_decide_eq_false_2.
Qed.

(** X8. With draws in [0, 1), a spawn check keeps the invariants of the
    registry: a monster it adds is stored under its own id, idle at full hp,
    without target or respawn time, and placed inside its map. *)
Theorem checkSpawning_keeps_invariants rt now s :
  draws_in_unit rt →
  wf_registry (activeMonsters s) →
  wf_registry (activeMonsters (checkSpawning rt now s).2).
Proof.
  intros Hdraws Hwf.
  destruct (decide (now - lastSpawnCheck s < 5000)) as [Hgate|Hgate].
  { unfold checkSpawning. by rewrite bool_decide_eq_true_2. }
  rewrite checkSpawning_unfold by done.
  apply (forEach_preserves (λ s, wf_registry (activeMonsters s))); [|done].
  intros k s1 Hs1. case_bool_decide; [|done].
  destruct (trySpawnMonster_cases rt now k s1 Hdraws)
    as (_ & [[-> _]|(tpl & m' & _ & _ & _ & _ & Hm' & _ & _ & _ & _ & -> & _)]);
    [done|].
  by apply wf_registry_set.
Qed.

Lemma checkSpawning_keeps_invariants_witness :
  wf_registry
    (activeMonsters (checkSpawning (constant_runtime 0) 5000
                       (sample_service 50 idle None)).2).
Proof.
  apply (checkSpawning_keeps_invariants (constant_runtime 0) 5000
           (sample_service 50 idle None)).
  - intros n. split; simpl; [discriminate | reflexivity].
  - apply (bool_decide_unpack _). vm_compute. exact I.
Defined.

(** X9. A monster that [trySpawnMonster] adds on map [k] comes from a
    built-in template that lists [k] among its spawn maps; it carries that
    template's type and name, stands on map [k], and is announced there by
    one [monster_spawn] message.  Otherwise the call changes neither the
    registry nor the outbox. *)
Theorem trySpawnMonster_eligible rt now k s :
  draws_in_unit rt →
  (activeMonsters (trySpawnMonster rt now k s).2 = activeMonsters s ∧
   outbox (trySpawnMonster rt now k s).2 = outbox s) ∨
  ∃ tpl m',
    tpl ∈ templates ∧ k ∈ spawnMaps tpl ∧
    type m' = tpl_type tpl ∧ name m' = tpl_name tpl ∧
    mapId (position m') = k ∧ state m' = idle ∧ hp m' = maxHp m' ∧
    getMonsterById (id m') (trySpawnMonster rt now k s).2 = Some m' ∧
    outbox (trySpawnMonster rt now k s).2
      = outbox s ++ [(k, monster_spawn (getMonsterPublicData m'))].
Proof.
  intros Hdraws.
  destruct (trySpawnMonster_cases rt now k s Hdraws)
    as (_ & [?|(tpl & m' & ? & ? & ? & ? & ? & ? & ? & ? & ? & Hreg & ?)]);
    [by left|].
  right. exists tpl, m'. split_and!; try done.
  unfold getMonsterById. by rewrite Hreg, Map_get_set_eq.
Qed.

Lemma trySpawnMonster_eligible_witness :
  ∃ m', type m' = goblin ∧ mapId (position m') = 1 ∧
        getMonsterById (id m')
          (trySpawnMonster (constant_runtime 0) 5000 1
             (sample_service 50 idle None)).2 = Some m'.
Proof.
  destruct (trySpawnMonster_eligible (constant_runtime 0) 5000 1
              (sample_service 50 idle None))
    as [[Hsame _]|(tpl & m' & Htpl & Hk & Hty & _ & Hmap & _ & _ & Hget & _)].
  - intros n. split; simpl; [discriminate | reflexivity].
  - vm_compute in Hsame. discriminate.
  - exists m'. split_and!; [|done|done].
    rewrite Hty. rewrite !list_elem_of_In in Htpl. simpl in Htpl.
    apply list_elem_of_In in Hk.
    destruct Htpl as [<-|[<-|[<-|[<-|[<-|[<-|[]]]]]]]; simpl in *;
      [reflexivity|..]; exfalso; intuition discriminate.
Defined.

(** ** What a tick changes and what it leaves alone *)

Lemma tick_rel_refl r : tick_rel r r.
Proof. split; [done|]. intros k m Hget. exists m. by split_and!. Qed.

Lemma tick_rel_trans r1 r2 r3 : tick_rel r1 r2 → tick_rel r2 r3 → tick_rel r1 r3.
Proof.
  intros [K1 H1] [K2 H2]. split; [congruence|]. intros k m Hget.
  destruct (H1 k m Hget) as (m2 & Hget2 & S2 & L2).
  destruct (H2 k m2 Hget2) as (m3 & Hget3 & S3 & L3).
  exists m3. split_and!; [done | congruence |]. intros Hal.
  destruct (L2 Hal) as (A2 & B2 & C2). destruct (L3 A2) as (A3 & B3 & C3).
  split_and!; [done | congruence | congruence].
Qed.

Lemma tick_rel_set k0 v r m0 :
  Map_get k0 r = Some m0 → static_of v = static_of m0 →
  (state m0 ≠ dead →
   state v ≠ dead ∧ hp v = hp m0 ∧ respawnTime v = respawnTime m0) →
  tick_rel r (Map_set k0 v r).
Proof.
  intros Hget Hs Hl. split; [by eapply Map_keys_set_get|]. intros k m Hk.
  destruct (decide (k0 = k)) as [<-|Hne].
  - rewrite Map_get_set_eq. exists v. rewrite Hget in Hk.
    injection Hk as <-. by split_and!.
  - rewrite Map_get_set_ne by done. exists m. by split_and!.
Qed.

Lemma updateMonster_rel rt now k s :
  tick_rel (activeMonsters s) (activeMonsters (updateMonster rt now k s).2) ∧
  lastSpawnCheck (updateMonster rt now k s).2 = lastSpawnCheck s.
Proof.
  destruct (Map_get k (activeMonsters s)) as [m|] eqn:Hget.
  2:{ rewrite updateMonster_absent by done. split; [apply tick_rel_refl|done]. }
  destruct (decide (state m = dead)) as [Hd|Hal].
  - rewrite (updateMonster_dead_entry _ _ _ _ _ Hget Hd).
    destruct (respawnTime m); [|split; [apply tick_rel_refl|done]].
    case_bool_decide; [|split; [apply tick_rel_refl|done]].
    split; [|done]. simpl. by eapply tick_rel_set.
  - destruct (updateMonster_live rt now k s m true Hget Hal)
      as (m' & evs & -> & -> & _ & _ & Hstep); [done|].
    split; [|done]. destruct Hstep as (S1 & S2 & _ & S4 & S5 & _).
    by eapply tick_rel_set.
Qed.

Lemma updateMonsters_forEach rt now s :
  (updateMonsters rt now s).2 =
  (forEach (Map_keys (activeMonsters s)) (updateMonster rt now) s).2.
Proof. done. Qed.

(** X10. A tick of the monster AI neither adds nor removes a registry key
    and leaves the spawn-check time alone; every monster keeps the attributes
    fixed at spawn (id, name, type, level, maxHp, attack, defense, rewards,
    map, ranges, patrol anchor); and a monster that was alive is still alive,
    with the same hp: the tick never hurts or kills. *)
Theorem updateMonsters_frame rt now s :
  Map_keys (activeMonsters (updateMonsters rt now s).2)
    = Map_keys (activeMonsters s) ∧
  lastSpawnCheck (updateMonsters rt now s).2 = lastSpawnCheck s ∧
  ∀ k m, getMonsterById k s = Some m →
    ∃ m', getMonsterById k (updateMonsters rt now s).2 = Some m' ∧
          static_of m' = static_of m ∧
          (state m ≠ dead →
           state m' ≠ dead ∧ hp m' = hp m ∧ respawnTime m' = respawnTime m).
Proof.
  rewrite updateMonsters_forEach.
  assert (tick_rel (activeMonsters s)
            (activeMonsters
               (forEach (Map_keys (activeMonsters s)) (updateMonster rt now) s).2)
          ∧ lastSpawnCheck
              (forEach (Map_keys (activeMonsters s)) (updateMonster rt now) s).2
            = lastSpawnCheck s) as [[Hk Hrel] Hl].
  { apply (forEach_preserves
             (λ s1, tick_rel (activeMonsters s) (activeMonsters s1) ∧
                    lastSpawnCheck s1 = lastSpawnCheck s)).
    - intros k s1 [Hr Hl]. destruct (updateMonster_rel rt now k s1) as [Hr' Hl'].
      split; [by eapply tick_rel_trans | congruence].
    - split; [apply tick_rel_refl | done]. }
  by split_and!.
Qed.

Lemma updateMonsters_frame_witness :
  ∃ m', getMonsterById "monster_1"
          (updateMonsters (constant_runtime 0) 500 hit_run.2).2 = Some m' ∧
        static_of m' = static_of (sample_goblin 50 idle None) ∧
        state m' ≠ dead ∧ hp m' = 35.
Proof.
  destruct (updateMonsters_frame (constant_runtime 0) 500 hit_run.2)
    as (_ & _ & Hrel).
  destruct (Hrel "monster_1"
              (set_state chasing
                 (set_target (Some "7")
                    (set_hp 35 (sample_goblin 50 idle None)))))
    as (m' & Hget & Hs & Hlive); [reflexivity|].
  exists m'. destruct Hlive as (? & ? & _); [discriminate|]. by split_and!.
Defined.

(** ** Dead monsters and the tick *)

Lemma Map_get_Some_keys k r m : Map_get k r = Some m → k ∈ Map_keys r.
Proof.
  induction r as [|[k0 v0] r IH]; simpl; [done|].
  case_bool_decide as Hk.
  - intros _. subst. by left.
  - intros H. right. by apply IH.
Qed.

Lemma updateMonster_other rt now k0 k s :
  k0 ≠ k →
  Map_get k (activeMonsters (updateMonster rt now k0 s).2)
    = Map_get k (activeMonsters s).
Proof.
  intros Hne. destruct (Map_get k0 (activeMonsters s)) as [m|] eqn:Hget.
  2:{ by rewrite updateMonster_absent. }
  destruct (decide (state m = dead)) as [Hd|Hal].
  - rewrite (updateMonster_dead_entry _ _ _ _ _ Hget Hd).
    destruct (respawnTime m); [|done]. case_bool_decide; [|done]. simpl.
    by apply Map_get_set_ne.
  - destruct (updateMonster_live rt now k0 s m true Hget Hal)
      as (m' & evs & -> & _); [done|].
    by apply Map_get_set_ne.
Qed.

Lemma forEach_updateMonster_other rt now l k s :
  k ∉ l →
  Map_get k (activeMonsters (forEach l (updateMonster rt now) s).2)
    = Map_get k (activeMonsters s).
Proof.
  revert s. induction l as [|k0 l IH]; intros s Hk; [done|].
  apply not_elem_of_cons in Hk as [Hne Hk].
  rewrite forEach_cons, IH by done. by apply updateMonster_other.
Qed.

Lemma forEach_updateMonster_dead rt now l k s m :
  NoDup l → k ∈ l →
  Map_get k (activeMonsters s) = Some m → state m = dead →
  Map_get k (activeMonsters (forEach l (updateMonster rt now) s).2) =
    Some (match respawnTime m with
          | Some t => if bool_decide (now > t) then respawned now m else m
          | None => m
          end).
Proof.
  revert s. induction l as [|k0 l IH]; intros s Hnd Hin Hget Hd.
  { by apply elem_of_nil in Hin. }
  apply NoDup_cons in Hnd as [Hk0 Hnd]. rewrite forEach_cons.
  destruct (decide (k0 = k)) as [->|Hne].
  - rewrite forEach_updateMonster_other by done.
    rewrite (updateMonster_dead_entry _ _ _ _ _ Hget Hd).
    destruct (respawnTime m); [|done]. case_bool_decide; [|done]. simpl.
    apply Map_get_set_eq.
  - apply elem_of_cons in Hin as [?|Hin]; [congruence|].
    apply IH; [done | done | | done].
    by rewrite updateMonster_other.
Qed.

(** X11. With distinct registry keys, a tick takes a dead monster nowhere
    but to idle, and only once the clock is past its respawn time: then the
    entry is idle at full hp with the respawn time cleared; otherwise the
    entry is exactly as it was. *)
Theorem updateMonsters_dead rt now s k m :
  NoDup (Map_keys (activeMonsters s)) →
  getMonsterById k s = Some m →
  state m = dead →
  ∃ m', getMonsterById k (updateMonsters rt now s).2 = Some m' ∧
        ((m' = m ∧ ¬ ∃ t, respawnTime m = Some t ∧ now > t) ∨
         (state m' = idle ∧ hp m' = maxHp m ∧ respawnTime m' = None ∧
          lastAction m' = now ∧ static_of m' = static_of m ∧
          ∃ t, respawnTime m = Some t ∧ now > t)).
Proof.
  unfold getMonsterById. intros Hnd Hget Hd. rewrite updateMonsters_forEach.
  rewrite (forEach_updateMonster_dead rt now _ k s m Hnd
             (Map_get_Some_keys _ _ _ Hget) Hget Hd).
  eexists. split; [done|].
  destruct (respawnTime m) as [t|] eqn:Hrt.
  - case_bool_decide as Hnow.
    + right. split_and!; try done. eauto.
    + left. split; [done|]. intros (t' & [= <-] & ?). done.
  - left. split; [done|]. by intros (t' & ? & ?).
Qed.

Lemma updateMonsters_dead_witness :
  (∃ m', getMonsterById "monster_1"
           (updateMonsters (constant_runtime 0) 31000 kill_run.2).2 = Some m' ∧
         state m' = dead) ∧
  (∃ m', getMonsterById "monster_1"
           (updateMonsters (constant_runtime 0) 31001 kill_run.2).2 = Some m' ∧
         state m' = idle ∧ hp m' = 50).
Proof.
  split.
  - destruct (updateMonsters_dead (constant_runtime 0) 31000 kill_run.2
                "monster_1"
                (slain 1000 (damaged 100 7 (sample_goblin 10 idle None))))
      as (m' & Hget & [[-> _]|(_ & _ & _ & _ & _ & t & [= <-] & Hnow)]).
    + apply (bool_decide_unpack _). vm_compute. exact I.
    + reflexivity.
    + reflexivity.
    + eexists. split; [exact Hget | reflexivity].
    + lia.
  - destruct (updateMonsters_dead (constant_runtime 0) 31001 kill_run.2
                "monster_1"
                (slain 1000 (damaged 100 7 (sample_goblin 10 idle None))))
      as (m' & Hget & [[_ Hno]|(Hst & Hhp & _)]).
    + apply (bool_decide_unpack _). vm_compute. exact I.
    + reflexivity.
    + reflexivity.
    + exfalso. apply Hno. exists 31000. split; [reflexivity | lia].
    + eexists. split_and!; [exact Hget | exact Hst | exact Hhp].
Defined.

(** ** Attacks and the tick rate *)

Lemma no_attack_since_refl s : no_attack_since s s.
Proof. exists []. split; [by rewrite app_nil_r | done]. Qed.

Lemma no_attack_since_trans s1 s2 s3 :
  no_attack_since s1 s2 → no_attack_since s2 s3 → no_attack_since s1 s3.
Proof.
  intros (e1 & H1 & F1) (e2 & H2 & F2). exists (e1 ++ e2).
  split; [by rewrite H2, H1, app_assoc | by apply Forall_app].
Qed.

(** One pass of the loop body over fresh monsters sends no attack and
    leaves the monsters fresh. *)
Lemma updateMonster_quiet rt now k s :
  fresh now s →
  fresh now (updateMonster rt now k s).2 ∧
  no_attack_since s (updateMonster rt now k s).2.
Proof.
  intros Hfresh. destruct (Map_get k (activeMonsters s)) as [m|] eqn:Hget.
  2:{ rewrite updateMonster_absent by done.
      split; [done | apply no_attack_since_refl]. }
  destruct (decide (state m = dead)) as [Hd|Hal].
  - rewrite (updateMonster_dead_entry _ _ _ _ _ Hget Hd).
    destruct (respawnTime m); [|split; [done | apply no_attack_since_refl]].
    case_bool_decide; [|split; [done | apply no_attack_since_refl]].
    split.
    + intros k' m' Hget' Hal'. simpl in Hget'.
      destruct (decide (k = k')) as [<-|Hne].
      * rewrite Map_get_set_eq in Hget'. injection Hget' as <-. simpl. lia.
      * rewrite Map_get_set_ne in Hget' by done. by eapply Hfresh.
    + eexists. split; [done|]. by repeat constructor.
  - destruct (updateMonster_live rt now k s m false Hget Hal)
      as (m' & evs & Hreg & _ & Hout & Hq & Hstep).
    { intros _. by eapply Hfresh. }
    split.
    + intros k' m1 Hget' Hal'. rewrite Hreg in Hget'.
      destruct (decide (k = k')) as [<-|Hne].
      * rewrite Map_get_set_eq in Hget'. injection Hget' as <-. simpl. lia.
      * rewrite Map_get_set_ne in Hget' by done. by eapply Hfresh.
    + exists evs. split; [done | by apply Hq].
Qed.

(** After its pass, a live entry carries the clock value of the pass, and
    later passes over other keys leave that as it is. *)
Lemma updateMonster_stamp rt now k0 k s :
  (k = k0 ∨
   ∀ m, Map_get k (activeMonsters s) = Some m → state m ≠ dead →
        lastAction m = now) →
  ∀ m, Map_get k (activeMonsters (updateMonster rt now k0 s).2) = Some m →
       state m ≠ dead → lastAction m = now.
Proof.
  intros Hk m Hget Hal.
  destruct (decide (k0 = k)) as [->|Hne].
  2:{ rewrite updateMonster_other in Hget by done.
      destruct Hk as [?|Hk]; [congruence | by apply Hk]. }
  destruct (Map_get k (activeMonsters s)) as [m0|] eqn:Hget0.
  2:{ rewrite updateMonster_absent in Hget by done. simpl in Hget.
      congruence. }
  destruct (decide (state m0 = dead)) as [Hd|Hal0].
  - rewrite (updateMonster_dead_entry _ _ _ _ _ Hget0 Hd) in Hget.
    destruct (respawnTime m0).
    + case_bool_decide.
      * simpl in Hget. rewrite Map_get_set_eq in Hget. by injection Hget as <-.
      * simpl in Hget. congruence.
    + simpl in Hget. congruence.
  - destruct (updateMonster_live rt now k s m0 true Hget0 Hal0)
      as (m' & evs & Hreg & _); [done|].
    rewrite Hreg, Map_get_set_eq in Hget. by injection Hget as <-.
Qed.

Lemma forEach_updateMonster_stamp rt now l k s :
  (k ∈ l ∨
   ∀ m, Map_get k (activeMonsters s) = Some m → state m ≠ dead →
        lastAction m = now) →
  ∀ m, Map_get k (activeMonsters (forEach l (updateMonster rt now) s).2)
         = Some m →
       state m ≠ dead → lastAction m = now.
Proof.
  revert s. induction l as [|k0 l IH]; intros s Hk.
  { destruct Hk as [Hk|Hk]; [by apply elem_of_nil in Hk | exact Hk]. }
  rewrite forEach_cons. apply IH.
  destruct (decide (k ∈ l)) as [?|Hnl]; [by left|]. right.
  apply updateMonster_stamp.
  destruct Hk as [Hk|Hk]; [|by right].
  apply elem_of_cons in Hk as [?|?]; [by left | done].
Qed.

Lemma updateMonsters_quiet rt now s :
  fresh now s →
  stamped now (updateMonsters rt now s).2 ∧
  no_attack_since s (updateMonsters rt now s).2.
Proof.
  intros Hfresh. split.
  - intros k m Hget Hal.
    assert (k ∈ Map_keys (activeMonsters s)) as Hk.
    { apply Map_get_Some_keys in Hget.
      rewrite updateMonsters_forEach in Hget.
      assert (Map_keys
                (activeMonsters
                   (forEach (Map_keys (activeMonsters s))
                      (updateMonster rt now) s).2)
              = Map_keys (activeMonsters s)) as <-; [|done].
      apply (forEach_preserves
               (λ s1, Map_keys (activeMonsters s1)
                      = Map_keys (activeMonsters s))); [|done].
      intros k1 s1 <-. by destruct (updateMonster_rel rt now k1 s1) as [[? _] _]. }
    rewrite updateMonsters_forEach in Hget.
    eapply forEach_updateMonster_stamp; [by left | exact Hget | done].
  - rewrite updateMonsters_forEach.
    apply (forEach_preserves (λ s1, fresh now s1 ∧ no_attack_since s s1));
      [|split; [done | apply no_attack_since_refl]].
    intros k s1 [Hf Hq]. destruct (updateMonster_quiet rt now k s1 Hf) as [? ?].
    split; [done | by eapply no_attack_since_trans].
Qed.

Lemma checkSpawning_quiet rt now s :
  draws_in_unit rt → stamped now s →
  stamped now (checkSpawning rt now s).2 ∧
  no_attack_since s (checkSpawning rt now s).2.
Proof.
  intros Hdraws Hst.
  destruct (decide (now - lastSpawnCheck s < 5000)) as [Hgate|Hgate].
  { unfold checkSpawning. rewrite bool_decide_eq_true_2 by done.
    split; [done | apply no_attack_since_refl]. }
  rewrite checkSpawning_unfold by done.
  set (s0 := mkService (activeMonsters s) now (outbox s) (rng s)).
  assert (stamped now s0 ∧ no_attack_since s s0) as Hs0.
  { split; [done|]. exists []. split; [simpl; by rewrite app_nil_r | done]. }
  revert Hs0.
  apply (forEach_preserves (λ s1, stamped now s1 ∧ no_attack_since s s1)).
  intros k s1 [Hs1 Hq1]. case_bool_decide; [|done].
  destruct (trySpawnMonster_cases rt now k s1 Hdraws)
    as (_ & [[Hreg Hout]|(tpl & m' & _ & _ & _ & _ & _ & _ & _ & Hla & _
                          & Hreg & Hout)]).
  - split.
    + intros k' m Hget. rewrite Hreg in Hget. by eapply Hs1.
    + eapply no_attack_since_trans; [exact Hq1|].
      exists []. split; [by rewrite Hout, app_nil_r | done].
  - split.
    + intros k' m Hget Hal. rewrite Hreg in Hget.
      destruct (decide (id m' = k')) as [<-|Hne].
      * rewrite Map_get_set_eq in Hget. by injection Hget as <-.
      * rewrite Map_get_set_ne in Hget by done. by eapply Hs1.
    + eapply no_attack_since_trans; [exact Hq1|].
      eexists. split; [exact Hout | by repeat constructor].
Qed.

(** X12. While the game loop runs less than 1500 ms apart (it is set to
    500 ms), no monster ever attacks: starting from monsters that acted less
    than 1500 ms before the first run, no run of the loop adds a
    [monster_attack] message to the outbox, because every run resets
    [lastAction], from which the attack cooldown (1500 ms at least) is
    measured. *)
Theorem runLoop_never_attacks rt start period n s :
  draws_in_unit rt →
  0 <= period < 1500 →
  fresh (start + period) s →
  ∃ evs, outbox (runLoop rt start period n s) = outbox s ++ evs ∧
         Forall (λ e, is_attack e = false) evs.
Proof.
  intros Hdraws Hp. revert start s.
  induction n as [|n IH]; intros start s Hfresh; [apply no_attack_since_refl|].
  cbn [runLoop].
  assert (stamped (start + period) (gameLoop rt (start + period) s).2 ∧
          no_attack_since s (gameLoop rt (start + period) s).2) as [Hst Hq].
  { assert ((gameLoop rt (start + period) s).2
            = (checkSpawning rt (start + period)
                 (updateMonsters rt (start + period) s).2).2) as ->.
    { unfold gameLoop, bind.
      by destruct (updateMonsters rt (start + period) s). }
    destruct (updateMonsters_quiet rt _ s Hfresh) as [Hst1 Hq1].
    destruct (checkSpawning_quiet rt _ _ Hdraws Hst1) as [Hst2 Hq2].
    split; [done | by eapply no_attack_since_trans]. }
  eapply no_attack_since_trans; [exact Hq|]. apply IH.
  intros k m Hget Hal. rewrite (Hst k m Hget Hal). lia.
Qed.

Lemma runLoop_never_attacks_witness :
  ∃ evs, outbox (runLoop (constant_runtime 0) 0 500 40 hit_run.2)
           = outbox hit_run.2 ++ evs ∧
         Forall (λ e, is_attack e = false) evs.
Proof.
  apply (runLoop_never_attacks (constant_runtime 0) 0 500 40 hit_run.2).
  - intros n. split; simpl; [discriminate | reflexivity].
  - lia.
  - intros k m Hget Hal. simpl in Hget. case_bool_decide; [|done].
    injection Hget as <-. simpl. lia.
Defined.

(** ** The census under kills and respawns *)

Lemma filter_Map_set_exact (P : Monster → bool) k v r m :
  Map_get k r = Some m →
  (length (List.filter P (Map_values (Map_set k v r)))
   + (if P m then 1 else 0) =
   length (List.filter P (Map_values r)) + (if P v then 1 else 0))%nat.
Proof.
  unfold Map_values. induction r as [|[k0 v0] r IH]; simpl; [done|].
  case_bool_decide as Hk.
  - intros [= ->]. simpl. destruct (P v), (P m); simpl; lia.
  - intros Hget. specialize (IH Hget). simpl. destruct (P v0); simpl; lia.
Qed.

Lemma census_Map_set k v s s' m j :
  Map_get k (activeMonsters s) = Some m →
  activeMonsters s' = Map_set k v (activeMonsters s) →
  mapId (position v) = mapId (position m) →
  (census s' j
   + (if bool_decide (mapId (position m) = j) && alive m then 1 else 0) =
   census s j
   + (if bool_decide (mapId (position m) = j) && alive v then 1 else 0))%nat.
Proof.
  intros Hget Hreg Hmap. unfold census, getActiveMonsters. rewrite Hreg.
  pose proof (filter_Map_set_exact
                (λ monster, bool_decide (mapId (position monster) = j)
                            && alive monster) k v _ _ Hget) as H.
  cbv beta in H. by rewrite Hmap in H.
Qed.

(** X13. A hit that kills takes the monster out of the census of its map
    at once, by exactly one, and leaves every other map's census alone; a hit
    the monster survives changes no census; and the respawn of a dead
    monster puts it back, raising the census of its map by exactly one. *)
Theorem census_kill_respawn now k s m :
  getMonsterById k s = Some m →
  (state m ≠ dead →
   ∀ d a j,
     (census (damageMonster now k d a s).2 j
      + (if killed (damageMonster now k d a s).1
            && bool_decide (mapId (position m) = j) then 1 else 0)
      = census s j)%nat) ∧
  (state m = dead →
   ∀ j,
     (census (respawnMonster now k s).2 j =
      census s j
      + (if bool_decide (mapId (position m) = j) then 1 else 0))%nat).
Proof.
  unfold getMonsterById. intros Hget. split.
  - intros Hal d a j.
    assert (alive m = true) as Halive by (by apply bool_decide_eq_true_2).
    destruct (damaged_fields d a m) as (_ & Hpos & _).
    destruct (decide (Z.max 0 (hp m - Z.max 1 (d - defense m)) = 0))
      as [Hz|Hnz].
    + rewrite (damageMonster_slay _ _ _ _ _ _ Hget Hal Hz). cbn [fst snd killed].
      pose proof (census_Map_set k (slain now (damaged d a m)) s
                    (mkService
                       (Map_set k (slain now (damaged d a m)) (activeMonsters s))
                       (lastSpawnCheck s)
                       (outbox s ++
                        [(mapId (position m),
                          monster_damaged (id m) (Z.max 1 (d - defense m)) 0
                            (maxHp m))] ++
                        [(mapId (position m),
                          monster_died (id m) a (experience m) (goldDrop m)
                            (position m))])
                       (rng s)) m j Hget eq_refl) as Hc.
      rewrite Halive in Hc. simpl in Hc. rewrite Hpos in Hc.
      specialize (Hc eq_refl). rewrite andb_false_r in Hc.
      destruct (bool_decide (mapId (position m) = j)); simpl in *; lia.
    + assert (0 < Z.max 0 (hp m - Z.max 1 (d - defense m))) as Hp by lia.
      rewrite (damageMonster_survive _ _ _ _ _ _ Hget Hal Hp).
      cbn [fst snd killed noReward].
      destruct (damaged_alive d a m Hp) as [Hch _].
      pose proof (census_Map_set k (damaged d a m) s
                    (mkService (Map_set k (damaged d a m) (activeMonsters s))
                       (lastSpawnCheck s)
                       (outbox s ++
                        [(mapId (position m),
                          monster_damaged (id m) (Z.max 1 (d - defense m))
                            (Z.max 0 (hp m - Z.max 1 (d - defense m)))
                            (maxHp m))])
                       (rng s)) m j Hget eq_refl) as Hc.
      rewrite Hpos in Hc. specialize (Hc eq_refl).
      assert (alive (damaged d a m) = true) as Hal'
        by (apply bool_decide_eq_true_2; by rewrite Hch).
      rewrite Halive, Hal' in Hc. simpl. lia.
  - intros Hd j. rewrite (respawnMonster_eq _ _ _ _ Hget). cbn [snd].
    pose proof (census_Map_set k (respawned now m) s
                  (mkService (Map_set k (respawned now m) (activeMonsters s))
                     (lastSpawnCheck s)
                     (outbox s ++
                      [(mapId (position m),
                        monster_spawn (getMonsterPublicData (respawned now m)))])
                     (rng s)) m j Hget eq_refl eq_refl) as Hc.
    assert (alive m = false) as Hdead
      by (apply bool_decide_eq_false_2; by intros []).
    rewrite Hdead, andb_false_r in Hc.
    assert (alive (respawned now m) = true) as Hal' by done.
    rewrite Hal', andb_true_r in Hc. lia.
Qed.

Lemma census_kill_respawn_witness :
  (census kill_run.2 1 + 1 = census (sample_service 10 idle None) 1)%nat ∧
  (census (respawnMonster 31500 "monster_1" kill_run.2).2 1
   = census kill_run.2 1 + 1)%nat.
Proof.
  split.
  - apply (proj1 (census_kill_respawn 1000 "monster_1"
                    (sample_service 10 idle None)
                    (sample_goblin 10 idle None) eq_refl)
             ltac:(discriminate) 100 7 1).
  - apply (proj2 (census_kill_respawn 31500 "monster_1" kill_run.2
                    (slain 1000 (damaged 100 7 (sample_goblin 10 idle None)))
                    eq_refl)
             eq_refl 1).
Defined.

(** ** [GameUtils]: random placement *)

(** X14. [generateRandomPosition] and [isValidPosition] agree on the three
    maps that have boundaries: with two draws in [0, 1] the point produced
    is accepted for the map.  For any other map id the "default safe
    position" (100, 100) is returned without a draw, and [isValidPosition]
    rejects it, as it rejects every point of a map without boundaries. *)
Theorem generateRandomPosition_in_map rt k s :
  (0 <= random rt (rng s) <= 1)%Q →
  (0 <= random rt (S (rng s)) <= 1)%Q →
  (k = 1 ∨ k = 2 ∨ k = 3 →
   isValidPosition (pt_x (generateRandomPosition rt k s).1)
     (pt_y (generateRandomPosition rt k s).1) k = true ∧
   rng (generateRandomPosition rt k s).2 = S (S (rng s))) ∧
  (k ≠ 1 → k ≠ 2 → k ≠ 3 →
   generateRandomPosition rt k s = (mkPoint 100 100, s) ∧
   ∀ x y, isValidPosition x y k = false).
Proof.
  intros Hx Hy. split.
  - intros Hk.
    assert (∃ b, mapBoundaries k = Some b) as [b Hb]
      by (destruct Hk as [-> | [-> | ->]]; by eexists).
    split; [by eapply generateRandomPosition_valid|].
    unfold generateRandomPosition. by rewrite Hb.
  - intros H1 H2 H3.
    assert (mapBoundaries k = None) as Hb
      by (unfold mapBoundaries; by rewrite !bool_decide_eq_false_2).
    unfold generateRandomPosition, isValidPosition. by rewrite Hb.
Qed.

Lemma generateRandomPosition_in_map_witness :
  isValidPosition
    (pt_x (generateRandomPosition (constant_runtime 0.5) 2
             (mkService [] 0 [] 0)).1)
    (pt_y (generateRandomPosition (constant_runtime 0.5) 2
             (mkService [] 0 [] 0)).1) 2 = true ∧
  generateRandomPosition (constant_runtime 0.5) 7 (mkService [] 0 [] 0)
    = (mkPoint 100 100, mkService [] 0 [] 0).
Proof.
  destruct (generateRandomPosition_in_map (constant_runtime 0.5) 2
              (mkService [] 0 [] 0)) as [Hin _];
    [split; discriminate | split; discriminate |].
  destruct (generateRandomPosition_in_map (constant_runtime 0.5) 7
              (mkService [] 0 [] 0)) as [_ Hout];
    [split; discriminate | split; discriminate |].
  split.
  - apply Hin. right. left. reflexivity.
  - apply Hout; discriminate.
Defined.

(** ** The spawn check gate *)

Lemma forEach_spawn_lastSpawnCheck rt now (counts : gmap Z Z) l s :
  lastSpawnCheck
    (forEach l (λ k, if bool_decide (default 0 (counts !! k) < 20)
                     then trySpawnMonster rt now k else ret tt) s).2
  = lastSpawnCheck s.
Proof.
  apply (forEach_preserves (λ s1, lastSpawnCheck s1 = lastSpawnCheck s));
    [|done].
  intros k s1 <-. case_bool_decide; [|done].
  by destruct (trySpawnMonster_effect rt now k s1) as [? _].
Qed.

(** X15. The spawn check is gated to one run per 5 seconds: called less
    than 5000 ms after the last effective check it changes nothing at all
    (no draw is consumed either); otherwise it records its clock value, so
    that any further call within the next 5000 ms changes nothing. *)
Theorem checkSpawning_gate rt now s :
  (now - lastSpawnCheck s < 5000 → checkSpawning rt now s = (tt, s)) ∧
  (5000 <= now - lastSpawnCheck s →
   lastSpawnCheck (checkSpawning rt now s).2 = now ∧
   ∀ now2, now2 - now < 5000 →
     checkSpawning rt now2 (checkSpawning rt now s).2
       = (tt, (checkSpawning rt now s).2)).
Proof.
  split.
  - intros Hgate. unfold checkSpawning. by rewrite bool_decide_eq_true_2.
  - intros Hgate.
    assert (lastSpawnCheck (checkSpawning rt now s).2 = now) as Hl.
    { rewrite checkSpawning_unfold by lia.
      by rewrite forEach_spawn_lastSpawnCheck. }
    split; [done|]. intros now2 H2. unfold checkSpawning at 1.
    by rewrite Hl, bool_decide_eq_true_2.
Qed.

Lemma checkSpawning_gate_witness :
  checkSpawning (constant_runtime 0) 4999 (sample_service 50 idle None)
    = (tt, sample_service 50 idle None) ∧
  lastSpawnCheck
    (checkSpawning (constant_runtime 0) 5000 (sample_service 50 idle None)).2
    = 5000.
Proof.
  destruct (checkSpawning_gate (constant_runtime 0) 4999
              (sample_service 50 idle None)) as [Hclosed _].
  destruct (checkSpawning_gate (constant_runtime 0) 5000
              (sample_service 50 idle None)) as [_ Hopen].
  split.
  - apply Hclosed. simpl. lia.
  - apply Hopen. simpl. lia.
Defined.

(** * Further properties of the game service *)

(** ** Fan-out *)

Lemma fan_out_any {Msg} (P : PlayerSession → bool) (msg : Msg) sessions
    (out : list (Socket * Msg)) :
  fold_left (λ out session, if P session then out ++ [(ws session, msg)]
                            else out) sessions out =
  out ++ map (λ session, (ws session, msg)) (List.filter P sessions).
Proof.
  revert out. induction sessions as [|x l IH]; intros out; simpl.
  - by rewrite app_nil_r.
  - rewrite IH. destruct (P x); simpl; [|done]. by rewrite <- app_assoc.
Qed.

Lemma broadcastToMap_any_eq {Msg} isOpen sessions k (msg : Msg) ex out :
  broadcastToMap_any isOpen sessions k msg ex out =
  out ++ map (λ x, (ws x, msg))
           (List.filter (λ x, bool_decide (Some (ws x) ≠ ex) && in_map k x
                              && isOpen (ws x)) sessions).
Proof.
  unfold broadcastToMap_any.
  by rewrite <- (fan_out_any (λ x, bool_decide (Some (ws x) ≠ ex)
                                   && in_map k x && isOpen (ws x))).
Qed.




(** ** The session registry *)

Lemma activeSessions_get_Some socket sessions session :
  activeSessions_get socket sessions = Some session →
  In session sessions ∧ ws session = socket.
Proof.
  unfold activeSessions_get. intros [Hin Hws]%find_some.
  by apply bool_decide_eq_true_1 in Hws.
Qed.

Lemma activeSessions_get_None socket sessions :
  ¬ In socket (map ws sessions) → activeSessions_get socket sessions = None.
Proof.
  intros Hnot. unfold activeSessions_get.
  destruct (List.find _ sessions) as [x|] eqn:E; [|done].
  apply find_some in E as [Hin Hws]. apply bool_decide_eq_true_1 in Hws.
  exfalso. apply Hnot. apply in_map_iff. eauto.
Qed.

Lemma activeSessions_delete_absent socket l :
  ¬ In socket (map ws l) → activeSessions_delete socket l = l.
Proof.
  induction l as [|x l IH]; simpl; [done|]. intros Hnot.
  rewrite bool_decide_eq_false_2 by tauto. rewrite IH; [done | tauto].
Qed.

Lemma activeSessions_delete_app socket pre x l :
  ¬ In (ws x) (map ws pre) → socket = ws x →
  activeSessions_delete socket (pre ++ x :: l) = pre ++ l.
Proof.
  intros Hnot ->. induction pre as [|y pre IH]; simpl.
  - by rewrite bool_decide_eq_true_2.
  - simpl in Hnot. rewrite bool_decide_eq_false_2 by tauto.
    rewrite IH; [done | tauto].
Qed.

Lemma activeSessions_delete_In socket l x :
  In x (activeSessions_delete socket l) → In x l.
Proof.
  induction l as [|y l IH]; simpl; [done|].
  case_bool_decide; [tauto|]. intros [?|?]; [by left | right; auto].
Qed.

Lemma activeSessions_delete_NoDup socket l :
  NoDup (map ws l) →
  NoDup (map ws (activeSessions_delete socket l)) ∧
  ¬ In socket (map ws (activeSessions_delete socket l)).
Proof.
  induction l as [|y l IH]; simpl; [split; [done | tauto]|].
  intros [Hy Hl]%NoDup_cons. case_bool_decide as Hws.
  - split; [done|]. subst. by rewrite <- list_elem_of_In.
  - destruct (IH Hl) as [IH1 IH2]. split.
    + simpl. apply NoDup_cons. split; [|done]. intros Hin. apply Hy.
      apply list_elem_of_In, in_map_iff in Hin as (x & Hx & Hin).
      apply list_elem_of_In, in_map_iff. exists x.
      split; [done|]. by eapply activeSessions_delete_In.
    + simpl. tauto.
Qed.

Lemma activeSessions_get_delete_ne socket other l :
  other ≠ socket →
  activeSessions_get other (activeSessions_delete socket l)
    = activeSessions_get other l.
Proof.
  intros Hne. unfold activeSessions_get.
  induction l as [|y l IH]; simpl; [done|].
  case_bool_decide as Hy; simpl.
  - rewrite bool_decide_eq_false_2 by congruence. done.
  - by rewrite IH.
Qed.

Lemma cleanup_fold now pre todo closed :
  NoDup (map ws (pre ++ todo)) →
  fold_left
    (λ acc session,
       if bool_decide (now - lastActivity session > 10 * 60 * 1000)
       then (activeSessions_delete (ws session) acc.1, acc.2 ++ [ws session])
       else acc)
    todo (pre ++ todo, closed) =
  (pre ++ List.filter (λ x, bool_decide (now - lastActivity x <= 600000)) todo,
   closed ++
   map ws (List.filter (λ x, bool_decide (now - lastActivity x > 600000))
             todo)).
Proof.
  revert pre closed. induction todo as [|x t IH]; intros pre closed Hnd.
  { simpl. by rewrite !app_nil_r. }
  cbn [fold_left List.filter].
  assert (¬ In (ws x) (map ws pre)) as Hx.
  { rewrite map_app in Hnd. apply NoDup_app in Hnd as (_ & Hd & _).
    intros Hin%list_elem_of_In. apply (Hd _ Hin). by left. }
  change (10 * 60 * 1000) with 600000.
  case_bool_decide as Hexp.
  - rewrite (bool_decide_eq_false_2 (_ <= _)) by lia. cbn [fst snd].
    rewrite (activeSessions_delete_app _ _ _ _ Hx eq_refl).
    rewrite IH.
    + simpl. by rewrite <- app_assoc.
    + rewrite map_app in *. simpl in Hnd.
      apply NoDup_app in Hnd as (H1 & H2 & H3%NoDup_cons).
      apply NoDup_app. split_and!; [done | | tauto].
      intros y Hy Hin. apply (H2 y Hy). by right.
  - rewrite (bool_decide_eq_true_2 (_ <= _)) by lia.
    replace (pre ++ x :: t) with ((pre ++ [x]) ++ t) by by rewrite <- app_assoc.
    rewrite IH; [by rewrite <- app_assoc|]. by rewrite <- app_assoc.
Qed.

(** X17. With one session per socket, the idle sweep removes exactly the
    sessions idle for more than 10 minutes and closes their sockets, in
    session order; a session idle for 10 minutes or less, the boundary
    included, stays, in its place. *)
Theorem cleanupInactiveSessions_spec now sessions :
  NoDup (map ws sessions) →
  cleanupInactiveSessions now sessions =
    (List.filter (λ x, bool_decide (now - lastActivity x <= 600000)) sessions,
     map ws (List.filter (λ x, bool_decide (now - lastActivity x > 600000))
               sessions)).
Proof.
  intros Hnd. exact (cleanup_fold now [] sessions [] Hnd).
Qed.

Lemma cleanupInactiveSessions_spec_witness :
  cleanupInactiveSessions 660000
    [mkSession 1%nat 101 None 0; mkSession 2%nat 102 None 120000;
     mkSession 3%nat 103 None 60000]
  = ([mkSession 2%nat 102 None 120000; mkSession 3%nat 103 None 60000],
     [1%nat]).
Proof.
  apply (cleanupInactiveSessions_spec 660000
           [mkSession 1%nat 101 None 0; mkSession 2%nat 102 None 120000;
            mkSession 3%nat 103 None 60000]).
  apply (bool_decide_unpack _). vm_compute. exact I.
Defined.

(** Chat never goes anywhere but to open sockets of registered sessions. *)
Lemma handleChat_recipients isOpen now sessions sender msg chan r :
  In r (recipients (handleChat isOpen now sessions sender msg chan [])) →
  isOpen r = true ∧ In r (map ws sessions).
Proof.
  unfold handleChat, recipients.
  destruct (activeSessions_get sender sessions) as [session|] eqn:Hs;
    [|done].
  apply activeSessions_get_Some in Hs as [Hin Hws].
  destruct (character session) as [c|]; [|done].
  destruct msg as [|text|]; [done| |done].
  destruct (_ || _); [done|].
  case_bool_decide.
  { rewrite broadcast_spec. cbn [app]. rewrite map_map. cbn [fst].
    intros (x & <- & [Hx Ho]%filter_In)%in_map_iff.
    split; [done | apply in_map_iff; eauto]. }
  case_bool_decide.
  { rewrite broadcastToMap_all_spec. cbn [app]. rewrite map_map. cbn [fst].
    intros (x & <- & [Hx Ho]%filter_In)%in_map_iff.
    apply andb_true_iff in Ho as [_ Ho].
    split; [done | apply in_map_iff; eauto]. }
  unfold sendMessage. destruct (isOpen sender) eqn:Ho; [|done]. simpl.
  intros [<-|[]]. split; [done|]. apply in_map_iff. eauto.
Qed.

(** X18. A chat message, whatever its text, channel and sender, is only
    ever written to open sockets of registered sessions; so after an idle
    sweep (with one session per socket) it reaches no session that had been
    idle for more than 10 minutes. *)
Theorem handleChat_reaches_sessions isOpen now sessions sender msg chan r :
  In r (recipients (handleChat isOpen now sessions sender msg chan [])) →
  (isOpen r = true ∧ ∃ x, In x sessions ∧ ws x = r) ∧
  (∀ sweep before,
     NoDup (map ws before) →
     sessions = (cleanupInactiveSessions sweep before).1 →
     ∃ x, In x before ∧ ws x = r ∧ sweep - lastActivity x <= 600000).
Proof.
  intros Hr. destruct (handleChat_recipients _ _ _ _ _ _ _ Hr) as [Ho Hin].
  apply in_map_iff in Hin as (x & Hws & Hx). split; [eauto|].
  intros sweep before Hnd ->.
  pose proof (f_equal fst (cleanup_fold sweep [] before [] Hnd)) as Hc.
  cbn [fst app] in Hc.
  change ((cleanupInactiveSessions sweep before).1) with
    (fold_left
       (λ acc session,
          if bool_decide (sweep - lastActivity session > 10 * 60 * 1000)
          then (activeSessions_delete (ws session) acc.1,
                acc.2 ++ [ws session])
          else acc)
       before (before, [])).1 in Hx.
  rewrite Hc in Hx.
  apply filter_In in Hx as [Hx Hk]. apply bool_decide_eq_true_1 in Hk. eauto.
Qed.

Lemma handleChat_reaches_sessions_witness :
  sample_isOpen 1%nat = true ∧ ∃ x, In x sample_sessions ∧ ws x = 1%nat.
Proof.
  apply (handleChat_reaches_sessions sample_isOpen 0 sample_sessions 1%nat
           (JsString "hello") (JsString "map") 1%nat).
  left. reflexivity.
Defined.






(** X20. With one session per socket, a disconnection removes the session
    of the socket and no other, tells the open sockets of the other sessions
    on the character's map that the player left, and cuts the socket off:
    no chat message sent afterwards, by anyone on any channel, is written to
    it.  A socket without session changes nothing. *)
Theorem handleDisconnection_spec isOpen socket g :
  NoDup (map ws (activeSessions g)) →
  let g' := handleDisconnection isOpen socket g in
  activeSessions_get socket (activeSessions g') = None ∧
  (∀ other, other ≠ socket →
     activeSessions_get other (activeSessions g')
       = activeSessions_get other (activeSessions g)) ∧
  NoDup (map ws (activeSessions g')) ∧
  (activeSessions_get socket (activeSessions g) = None → g' = g) ∧
  (∀ session c,
     activeSessions_get socket (activeSessions g) = Some session →
     character session = Some c →
     wire g' =
       wire g ++
       map (λ x, (ws x, out_player_left (char_id c) (char_name c)))
         (List.filter (λ x, bool_decide (Some (ws x) ≠ Some socket)
                            && in_map (map_id c) x && isOpen (ws x))
            (activeSessions g))) ∧
  (∀ now sender msg chan,
     ¬ In socket
         (recipients (handleChat isOpen now (activeSessions g') sender msg
                        chan []))).
Proof.
  intros Hnd g'. subst g'. unfold handleDisconnection.
  destruct (activeSessions_get socket (activeSessions g)) as [session|] eqn:Hs.
  - cbn [activeSessions wire].
    destruct (activeSessions_delete_NoDup socket _ Hnd) as [Hnd' Hgone].
    split_and!.
    + by apply activeSessions_get_None.
    + intros other Hne. by apply activeSessions_get_delete_ne.
    + done.
    + done.
    + intros ? c [= <-] ->. apply broadcastToMap_any_eq.
    + intros now sender msg chan Hin.
      by apply handleChat_recipients in Hin as [_ Hin].
  - split_and!; try done.
    intros now sender msg chan Hin.
    apply handleChat_recipients in Hin as [_ Hin].
    apply in_map_iff in Hin as (x & Hws & Hx).
    assert (activeSessions_get socket (activeSessions g) ≠ None) as Hne;
      [|done].
    unfold activeSessions_get.
    destruct (List.find _ (activeSessions g)) eqn:E; [done|].
    apply (find_none _ _ E) in Hx. by rewrite bool_decide_eq_true_2 in Hx.
Qed.

Lemma handleDisconnection_spec_witness :
  activeSessions_get 1%nat
    (activeSessions (handleDisconnection sample_isOpen 1%nat
                       (mkGame sample_sessions []))) = None ∧
  ¬ In 1%nat
      (recipients
         (handleChat sample_isOpen 0
            (activeSessions (handleDisconnection sample_isOpen 1%nat
                               (mkGame sample_sessions [])))
            2%nat (JsString "anyone?") (JsString "global") [])).
Proof.
  destruct (handleDisconnection_spec sample_isOpen 1%nat
              (mkGame sample_sessions [])) as (Hgone & _ & _ & _ & _ & Hcut).
  - apply (bool_decide_unpack _). vm_compute. exact I.
  - split; [exact Hgone | apply Hcut].
Defined.

(** * Further properties of [GameUtils] *)

(** ** Combat damage *)

Lemma Qltb_true a b : Qltb a b = true → (a < b)%Q.
Proof.
  unfold Qltb. intros H%negb_true_iff.
  destruct (Qlt_le_dec a b) as [|Hle]; [done|].
  apply Qle_bool_iff in Hle. congruence.
Qed.

(** X21. [calculateCombatDamage] never deals less than 1, and never less
    than 2 on a critical hit; a hit is critical only when the draw is below
    one half, and, the draw not being negative, never for an attacker whose
    dexterity is zero or less; an attacker 20 or more levels below the
    target deals exactly 1, or 2 on a critical hit, whatever the weapon, as
    long as strength plus weapon attack and the target's strength are not
    negative. *)
Theorem calculateCombatDamage_bounds rt attacker target weaponAttack s :
  let result := (calculateCombatDamage rt attacker target weaponAttack s).1 in
  1 <= result.1 ∧
  (result.2 = true → 2 <= result.1) ∧
  (result.2 = true → (random rt (rng s) < 0.5)%Q) ∧
  ((0 <= random rt (rng s))%Q → dexterity attacker <= 0 →
   result.2 = false) ∧
  (stat_level attacker + 20 <= stat_level target →
   0 <= strength attacker + weaponAttack → 0 <= strength target →
   result.1 = if result.2 then 2 else 1).
Proof.
  cbv [calculateCombatDamage bind ret Math_random]. cbn [fst snd].
  set (x := (inject_Z (strength attacker + weaponAttack) *
             (1 + inject_Z (stat_level attacker - stat_level target) * 0.05)
             - inject_Z (strength target) * 0.5)%Q).
  set (r := random rt (rng s)).
  set (chance := Qmin 0.5 (inject_Z (dexterity attacker) / 200)).
  assert (stat_level attacker + 20 <= stat_level target →
          0 <= strength attacker + weaponAttack → 0 <= strength target →
          (x <= 1)%Q) as Hedge.
  { intros Hlvl Hbase Hdef. subst x.
    assert (stat_level attacker - stat_level target <= -20) as Hd by lia.
    rewrite Zle_Qle in Hd, Hbase, Hdef.
    change (inject_Z 0) with 0%Q in *.
    change (inject_Z (-20)) with (-20)%Q in Hd.
    nra. }
  clearbody x r.
  pose proof (Q.le_max_l 1 x) as Hmax.
  pose proof (Q.le_min_l 0.5 (inject_Z (dexterity attacker) / 200)) as Hcap.
  pose proof (Q.le_min_r 0.5 (inject_Z (dexterity attacker) / 200)) as Hdex.
  fold chance in Hcap, Hdex. clearbody chance.
  split_and!.
  - destruct (Qltb r chance); apply (Qfloor_resp_le 1); lra.
  - intros ->. apply (Qfloor_resp_le 2). lra.
  - intros Hc%Qltb_true. lra.
  - intros Hr Hd. destruct (Qltb r chance) eqn:Hc; [|done].
    apply Qltb_true in Hc. rewrite Zle_Qle in Hd.
    change (inject_Z 0) with 0%Q in Hd.
    assert (inject_Z (dexterity attacker) / 200 <= 0)%Q.
    { apply Qle_shift_div_r; [done|]. by rewrite Qmult_0_l. }
    lra.
  - intros Hlvl Hbase Hdef. pose proof (Hedge Hlvl Hbase Hdef) as Hx.
    apply Q.max_l in Hx.
    destruct (Qltb r chance); rewrite Hx; reflexivity.
Qed.

Lemma calculateCombatDamage_bounds_witness :
  (calculateCombatDamage (constant_runtime 0.25)
     (mkCombatStats 5 20 100 8) (mkCombatStats 25 10 10 10) 12
     (sample_service 50 idle None)).1 = (2, true).
Proof.
  pose proof (calculateCombatDamage_bounds (constant_runtime 0.25)
     (mkCombatStats 5 20 100 8) (mkCombatStats 25 10 10 10) 12
     (sample_service 50 idle None)) as (_ & _ & _ & _ & H).
  specialize (H ltac:(simpl; lia) ltac:(simpl; lia) ltac:(simpl; lia)).
  destruct (calculateCombatDamage _ _ _ _ _) as [[damage crit] s'] eqn:E.
  simpl in H. assert (crit = true) as -> by (by vm_compute in E; injection E).
  by rewrite H.
Defined.

(** ** Levels *)

Section LevelProperties.
Variable Math_pow : Q → Q → Q.

Lemma generateExperienceTable_loop_spec n : ∀ k table,
  length table = S k →
  let table' :=
    generateExperienceTable_loop Math_pow (map Z.of_nat (seq (S (S k)) n))
      table in
  length table' = (S k + n)%nat ∧
  (∀ i, (i < S k)%nat → table' !! i = table !! i) ∧
  (∀ i, (S k <= i < S k + n)%nat →
     ∃ prev, table' !! (i - 1)%nat = Some prev ∧
       table' !! i =
         Some (prev +
               Qfloor (100 * Math_pow (inject_Z (Z.of_nat i)) 1.8))).
Proof.
  induction n as [|n IH]; intros k table Hlen; cbn [seq map generateExperienceTable_loop].
  - split_and!; [lia|done|lia].
  - set (entry := nth _ table 0 + _).
    destruct (IH (S k) (table ++ [entry])) as (Hl & Hold & Hnew).
    { rewrite length_app. simpl. lia. }
    split_and!.
    + lia.
    + intros i Hi. rewrite Hold by lia. apply lookup_app_l. lia.
    + intros i Hi. destruct (decide (i = S k)) as [->|Hne].
      * assert (is_Some (table !! k)) as [prev Hprev].
        { apply lookup_lt_is_Some. lia. }
        exists prev. rewrite !Hold by lia.
        replace (S k - 1)%nat with k by lia.
        rewrite lookup_app_l by lia. split; [done|].
        rewrite lookup_app_r by lia. rewrite Hlen, Nat.sub_diag. simpl.
        f_equal. subst entry.
        replace (Z.to_nat (Z.of_nat (S (S k)) - 2)) with k by lia.
        replace (Z.of_nat (S (S k)) - 1) with (Z.of_nat (S k)) by lia.
        f_equal. rewrite nth_lookup. by rewrite Hprev.
      * apply Hnew. lia.
Qed.

Lemma experienceTable_spec :
  length (experienceTable Math_pow) = 100%nat ∧
  (∀ i, (i < 1)%nat → experienceTable Math_pow !! i = [0] !! i) ∧
  (∀ i, (1 <= i < 100)%nat →
     ∃ prev, experienceTable Math_pow !! (i - 1)%nat = Some prev ∧
       experienceTable Math_pow !! i =
         Some (prev +
               Qfloor (100 * Math_pow (inject_Z (Z.of_nat i)) 1.8))).
Proof.
  exact (generateExperienceTable_loop_spec 99 0 [0] eq_refl).
Qed.

Lemma experienceTable_length : length (experienceTable Math_pow) = 100%nat.
Proof. exact (proj1 experienceTable_spec). Qed.

Lemma getRequiredExperience_defined level :
  is_Some (getRequiredExperience Math_pow level).
Proof.
  unfold getRequiredExperience, maxLevel. case_bool_decide; [done|].
  apply lookup_lt_is_Some. rewrite experienceTable_length. lia.
Qed.

Lemma calculateLevelFromExp_loop_spec experience n : ∀ a,
  match calculateLevelFromExp_loop Math_pow (map Z.of_nat (seq a n))
          experience with
  | Some level =>
      Z.of_nat a <= level < Z.of_nat (a + n) ∧
      (∃ r, getRequiredExperience Math_pow (level + 1) = Some r ∧
            experience < r) ∧
      ∀ l, Z.of_nat a <= l < level →
        ∃ r, getRequiredExperience Math_pow (l + 1) = Some r ∧ r <= experience
  | None =>
      ∀ l, Z.of_nat a <= l < Z.of_nat (a + n) →
        ∃ r, getRequiredExperience Math_pow (l + 1) = Some r ∧ r <= experience
  end.
Proof.
  induction n as [|n IH]; intros a; cbn [seq map calculateLevelFromExp_loop].
  - intros l Hl. lia.
  - destruct (getRequiredExperience_defined (Z.of_nat a + 1)) as [r Hr].
    rewrite Hr. specialize (IH (S a)). case_bool_decide as Hlt.
    + split_and!; [lia | lia | eauto | intros l Hl; lia].
    + destruct (calculateLevelFromExp_loop _ _ _) as [level|].
      * destruct IH as (Hrange & Hstop & Hbelow).
        split_and!; [lia|lia|done|].
        intros l Hl. destruct (decide (l = Z.of_nat a)) as [->|Hne].
        -- exists r. split; [done|lia].
        -- apply Hbelow. lia.
      * intros l Hl. destruct (decide (l = Z.of_nat a)) as [->|Hne].
        -- exists r. split; [done|lia].
        -- apply IH. lia.
Qed.

(** X22. The experience table has one entry per level up to 100: 0 for
    level 1, and for every later level the entry of the level before plus
    [floor(100 * (level - 1)^1.8)]; so [getRequiredExperience] is a number
    for every level, and 0 outside 2..100. *)
Theorem experienceTable_shape :
  length (experienceTable Math_pow) = 100%nat ∧
  experienceTable Math_pow !! 0%nat = Some 0 ∧
  (∀ level, 2 <= level <= 100 →
     ∃ prev,
       experienceTable Math_pow !! Z.to_nat (level - 2) = Some prev ∧
       getRequiredExperience Math_pow level =
         Some (prev +
               Qfloor (100 * Math_pow (inject_Z (level - 1)) 1.8))) ∧
  (∀ level, level <= 1 ∨ 100 < level →
     getRequiredExperience Math_pow level = Some 0).
Proof.
  destruct experienceTable_spec as (Hl & Hold & Hnew).
  split_and!.
  - exact Hl.
  - apply (Hold 0%nat). lia.
  - intros level Hlevel.
    destruct (Hnew (Z.to_nat (level - 1))) as (prev & Hprev & Hcur); [lia|].
    exists prev.
    replace (Z.to_nat (level - 2)) with (Z.to_nat (level - 1) - 1)%nat by lia.
    split; [exact Hprev|]. unfold getRequiredExperience, maxLevel.
    rewrite bool_decide_eq_false_2 by lia.
    rewrite Z2Nat.id in Hcur by lia. exact Hcur.
  - intros level Hlevel. unfold getRequiredExperience, maxLevel.
    rewrite bool_decide_eq_true_2; [reflexivity|lia].
Qed.

(** X23. Whatever the table holds, the level [calculateLevelFromExp]
    computes from an amount of experience lies in 1..100, a character of
    that level with that experience cannot level up, and a character of any
    lower level with that experience can. *)
Theorem calculateLevelFromExp_canLevelUp experience :
  let level := calculateLevelFromExp Math_pow experience in
  1 <= level <= 100 ∧
  canLevelUp Math_pow level experience = false ∧
  ∀ l, 1 <= l < level → canLevelUp Math_pow l experience = true.
Proof.
  unfold calculateLevelFromExp.
  pose proof (calculateLevelFromExp_loop_spec experience
                (Z.to_nat maxLevel) 1) as Hloop.
  destruct (calculateLevelFromExp_loop _ _ _) as [level|].
  - destruct Hloop as (Hrange & (r & Hr & Hlt) & Hbelow).
    unfold maxLevel in *. split_and!; [lia|lia| |].
    + unfold canLevelUp, maxLevel. case_bool_decide; [done|].
      rewrite Hr. apply bool_decide_eq_false_2. lia.
    + intros l Hl. destruct (Hbelow l) as (r' & Hr' & Hle); [lia|].
      unfold canLevelUp, maxLevel. rewrite bool_decide_eq_false_2 by lia.
      rewrite Hr'. apply bool_decide_eq_true_2. lia.
  - unfold maxLevel in *. split_and!; [lia|lia|done|].
    intros l Hl. destruct (Hloop l) as (r' & Hr' & Hle); [lia|].
    unfold canLevelUp, maxLevel. rewrite bool_decide_eq_false_2 by lia.
    rewrite Hr'. apply bool_decide_eq_true_2. lia.
Qed.

End LevelProperties.

Lemma experienceTable_shape_witness :
  getRequiredExperience (λ b _, b * b)%Q 2 = Some 100 ∧
  getRequiredExperience (λ b _, b * b)%Q 101 = Some 0.
Proof.
  destruct (experienceTable_shape (λ b _, b * b)%Q)
    as (_ & Hfirst & Hnext & Hout).
  split.
  - destruct (Hnext 2) as (prev & Hprev & Hreq); [lia|].
    change (Z.to_nat (2 - 2)) with 0%nat in Hprev.
    rewrite Hfirst in Hprev. injection Hprev as <-. exact Hreq.
  - apply Hout. right. lia.
Defined.

Lemma calculateLevelFromExp_canLevelUp_witness :
  calculateLevelFromExp (λ b _, b * b)%Q 150 = 2 ∧
  canLevelUp (λ b _, b * b)%Q 1 150 = true.
Proof.
  assert (calculateLevelFromExp (λ b _, b * b)%Q 150 = 2) as Hlevel
    by (vm_compute; reflexivity).
  split; [exact Hlevel|].
  pose proof (calculateLevelFromExp_canLevelUp (λ b _, b * b)%Q 150)
    as (_ & _ & Hbelow).
  apply Hbelow. rewrite Hlevel. lia.
Defined.
